(** * Dragonfly flight-control board: rotation transform, PID bank, motor output

  A shallow embedding of [rotation_transformation.c], [pid_control.c] and
  [motor_control.c], with the properties the specification states about
  them.

  [float32_t] code is written once, over an interface of scalar
  operations, and read at two instances: the real numbers (exact
  arithmetic, used for the algebraic properties) and IEEE-754 binary32
  (used where infinities and NaN matter). *)

From Stdlib Require Import ZArith List Bool Lia.
From Stdlib Require Import Reals Lra Psatz RNsatz.
From Stdlib Require Import SpecFloat.
From Stdlib Require Import Ascii String.
Import ListNotations.

(* ===================================================================== *)
(** * The scalar interface ([float32_t])                                  *)
(* ===================================================================== *)

Declare Scope f32_scope.
Delimit Scope f32_scope with f32.

(** The arithmetic the C sources perform on [float32_t]: the four
  operations, negation, [sqrt], the comparison [<] and integer
  constants. *)
Class Float32 (F : Type) : Type := {
fofZ  : Z -> F;
fadd  : F -> F -> F;
fsub  : F -> F -> F;
fmul  : F -> F -> F;
fdiv  : F -> F -> F;
fneg  : F -> F;
fsqrt : F -> F;
fltb  : F -> F -> bool
}.

(** The [math.h] and CMSIS trigonometric routines used by the rotation
  code ([arm_cos_f32], [arm_sin_f32], [acos], [asin], [atan2]). *)
Class Trig32 (F : Type) : Type := {
fcos   : F -> F;
fsin   : F -> F;
facos  : F -> F;
fasin  : F -> F;
fatan2 : F -> F -> F
}.

Notation "x + y" := (fadd x y) : f32_scope.
Notation "x - y" := (fsub x y) : f32_scope.
Notation "x * y" := (fmul x y) : f32_scope.
Notation "x / y" := (fdiv x y) : f32_scope.
Notation "- x" := (fneg x) : f32_scope.
Notation "x <? y" := (fltb x y) : f32_scope.
Notation "x >? y" := (fltb y x) : f32_scope.

(** ** Instance 1: exact real arithmetic *)

Module RealModel.

Definition Rltb (x y : R) : bool := if Rlt_dec x y then true else false.

(** C's [atan2 (y, x)], by quadrant. *)
Definition atan2 (y x : R) : R :=
  if Rlt_dec 0 x then atan (y / x)
  else if Rlt_dec x 0 then
    (if Rle_dec 0 y then atan (y / x) + PI else atan (y / x) - PI)
  else if Rlt_dec 0 y then PI / 2
  else if Rlt_dec y 0 then - (PI / 2)
  else 0.

#[export] Instance R_Float32 : Float32 R := {|
  fofZ  := IZR;
  fadd  := Rplus;
  fsub  := Rminus;
  fmul  := Rmult;
  fdiv  := Rdiv;
  fneg  := Ropp;
  fsqrt := sqrt;
  fltb  := Rltb
|}.

#[export] Instance R_Trig32 : Trig32 R := {|
  fcos   := cos;
  fsin   := sin;
  facos  := acos;
  fasin  := asin;
  fatan2 := atan2
|}.

End RealModel.

(** ** Instance 2: IEEE-754 binary32 *)

Module Binary32.

Definition prec : Z := 24.
Definition emax : Z := 128.

Definition float32 : Type := spec_float.

Definition NaN : float32 := S754_nan.
Definition pInf : float32 := S754_infinity false.
Definition pZero : float32 := S754_zero false.

Definition is_finite (x : float32) : bool :=
  match x with
  | S754_zero _ | S754_finite _ _ _ => true
  | S754_infinity _ | S754_nan => false
  end.

(** Every operation rounds to nearest-even in single precision.  The
    instance is used below on [Vector3DNormalize] only, at vectors whose
    computed squared norm is zero: from there on every intermediate value
    is a zero, an infinity or a NaN, and C's evaluation of [sqrt] and of
    [1.0 / norm] in double precision gives the same values. *)
#[export] Instance B32_Float32 : Float32 float32 := {|
  fofZ  := fun z => binary_normalize prec emax z 0 false;
  fadd  := SFadd prec emax;
  fsub  := SFsub prec emax;
  fmul  := SFmul prec emax;
  fdiv  := SFdiv prec emax;
  fneg  := SFopp;
  fsqrt := SFsqrt prec emax;
  fltb  := SFltb
|}.

End Binary32.

(* ===================================================================== *)
(** * rotation_transformation.c                                           *)
(* ===================================================================== *)

Module Rotation.
Section Code.

Context {F : Type} `{Float32 F} `{Trig32 F}.
Local Open Scope f32_scope.

Notation "0.0" := (fofZ 0).
Notation "1.0" := (fofZ 1).

(** [srcVector[i]] on a C array. *)
Definition idx (v : list F) (i : nat) : F := nth i v 0.0.

(** ** CMSIS-DSP helpers *)

(** Row-major transpose of an [r]x[c] array. *)
Definition trans_data (r c : nat) (d : list F) : list F :=
  flat_map (fun j => map (fun i => idx d (i * c + j)) (seq 0 r)) (seq 0 c).

(** Modelled from the spec: [arm_dot_prod_f32] (CMSIS-DSP library)
    accumulates [sum += a[i] * b[i]] over [blockSize] samples, from 0. *)
Fixpoint dot_prod_loop (a b : list F) (blkCnt : nat) (sum : F) : F :=
  match blkCnt, a, b with
  | S n, x :: a', y :: b' => dot_prod_loop a' b' n (sum + x * y)
  | _, _, _ => sum
  end.

Definition arm_dot_prod_f32 (pSrcA pSrcB : list F) (blockSize : nat) : F :=
  dot_prod_loop pSrcA pSrcB blockSize 0.0.

(** Modelled from the spec: [arm_scale_f32] (CMSIS-DSP library)
    multiplies the first [blockSize] samples by [scale]. *)
Definition arm_scale_f32 (pSrc : list F) (scale : F) (blockSize : nat)
  : list F :=
  map (fun x => x * scale) (firstn blockSize pSrc).

(** Matrix product of an [n]x[n] pair, used to state orthonormality. *)
Definition mat_mult_data (n : nat) (a b : list F) : list F :=
  flat_map (fun i =>
    map (fun j =>
      fold_left (fun s k => s + idx a (i * n + k) * idx b (k * n + j))
                (seq 0 n) 0.0)
      (seq 0 n))
    (seq 0 n).

(** Matrix-vector product of a 3x3 row-major array with a 3-vector. *)
Definition mat_vec_mult (a v : list F) : list F :=
  map (fun i =>
    idx a (i * 3) * idx v 0 + idx a (i * 3 + 1) * idx v 1
    + idx a (i * 3 + 2) * idx v 2)
    (seq 0 3).

(** ** Memory

    The two matrix instances of the file hold pointers to arrays, and the
    arrays they are given are automatic variables.  Storage is therefore
    explicit: a memory of [float32_t] cells, addresses counting cells, and
    the automatic arrays whose lifetime has not ended.  Where an automatic
    array is placed is up to the implementation; the functions below take
    the addresses of their arrays as arguments.  The cells of an array
    keep their contents when its lifetime ends, until they are stored to
    again. *)

Definition address : Type := Z.

Definition memory : Type := address -> F.

Definition store (m : memory) (p : address) (v : F) : memory :=
  fun q => if (q =? p)%Z then v else m q.

(** An array initialiser: the values are stored from [p] upwards. *)
Fixpoint store_array (m : memory) (p : address) (vs : list F) : memory :=
  match vs with
  | [] => m
  | v :: vs' => store_array (store m p v) (p + 1)%Z vs'
  end.

(** The [n] cells from [p] upwards. *)
Definition load_array (m : memory) (p : address) (n : nat) : list F :=
  map (fun i => m (p + Z.of_nat i)%Z) (seq 0 n).

(** Modelled from the spec: the matrix instance of the CMSIS-DSP library
    ([arm_matrix_instance_f32], declared in arm_math.h): the dimensions
    and a pointer to the row-major data. *)
Record arm_matrix_instance_f32 : Type := {
  numRows : nat;
  numCols : nat;
  pData   : address
}.

(** Modelled from the spec: [arm_mat_init_f32] (CMSIS-DSP library)
    binds an instance to its dimensions and data array. *)
Definition arm_mat_init_f32 (nRows nColumns : nat) (data : address)
  : arm_matrix_instance_f32 :=
  {| numRows := nRows; numCols := nColumns; pData := data |}.

(** Modelled from the spec: [arm_mat_trans_f32] (CMSIS-DSP library)
    writes the transpose of the source into the destination's array.
    The library copies element by element, reading the source row by row
    and writing each row down a column of the destination:
    [px = pOut + i; while (col > 0) { *px = *pIn++; px += nRows; col--; }]
    for the rows [i = 0, 1, ...] (build without
    [ARM_MATH_MATRIX_CHECK], at least one row). *)
Fixpoint trans_row (col nRows : nat) (pIn px : address) (m : memory)
  : address * memory :=
  match col with
  | O => (pIn, m)
  | S col' =>
      trans_row col' nRows (pIn + 1)%Z (px + Z.of_nat nRows)%Z
                (store m px (m pIn))
  end.

Fixpoint trans_rows (row nRows nColumns : nat) (pIn pOut : address)
         (i : Z) (m : memory) : memory :=
  match row with
  | O => m
  | S row' =>
      let (pIn', m') := trans_row nColumns nRows pIn (pOut + i)%Z m in
      trans_rows row' nRows nColumns pIn' pOut (i + 1)%Z m'
  end.

Definition arm_mat_trans_f32 (pSrc pDst : arm_matrix_instance_f32)
           (m : memory) : memory :=
  trans_rows (numRows pSrc) (numRows pSrc) (numCols pSrc)
             (pData pSrc) (pData pDst) 0%Z m.

(** ** File-scope state *)

(** The two file-scope matrix instances, the memory, and the addresses of
    the automatic arrays that are alive (innermost first). *)
Record RotationState : Type := {
  DCM       : arm_matrix_instance_f32;
  DCMInv    : arm_matrix_instance_f32;
  mem       : memory;
  automatic : list address
}.

(** The cells an instance points to, read as its row-major data. *)
Definition matrix (S : arm_matrix_instance_f32) (st : RotationState)
  : list F :=
  load_array (mem st) (pData S) (numRows S * numCols S).

(** Entry to a function that defines an automatic array at [p] with the
    given initialiser, and return from it. *)
Definition enter (p : address) (init : list F) (st : RotationState)
  : RotationState :=
  {| DCM := DCM st; DCMInv := DCMInv st;
     mem := store_array (mem st) p init;
     automatic := p :: automatic st |}.

Definition leave (st : RotationState) : RotationState :=
  {| DCM := DCM st; DCMInv := DCMInv st; mem := mem st;
     automatic := tl (automatic st) |}.

(** ** [UpdateRotationMatrix] *)

Definition DCMUpdate (roll pitch yaw : F) : list F :=
  [ fcos pitch * fcos yaw;
    fcos pitch * fsin yaw;
    - fsin pitch;
    - fcos roll * fsin yaw + fsin roll * fsin pitch * fcos yaw;
    fcos roll * fcos yaw + fsin roll * fsin pitch * fsin yaw;
    fsin roll * fcos pitch;
    fsin roll * fsin yaw + fcos roll * fsin pitch * fcos yaw;
    - fsin roll * fcos yaw + fcos roll * fsin pitch * fsin yaw;
    fcos roll * fcos pitch ].

(** The function up to its closing brace; [pDCMUpdate] is the address of
    the automatic array [DCMUpdate]. *)
Definition UpdateRotationMatrix_body (pDCMUpdate : address)
           (roll pitch yaw : F) (st : RotationState) : RotationState :=
  let st := enter pDCMUpdate (DCMUpdate roll pitch yaw) st in
  (* Init the DCM *)
  let dcm := arm_mat_init_f32 3 3 pDCMUpdate in
  (* Calculate the DCM inverse *)
  {| DCM := dcm; DCMInv := DCMInv st;
     mem := arm_mat_trans_f32 dcm (DCMInv st) (mem st);
     automatic := automatic st |}.

Definition UpdateRotationMatrix (pDCMUpdate : address)
           (roll pitch yaw : F) (st : RotationState) : RotationState :=
  leave (UpdateRotationMatrix_body pDCMUpdate roll pitch yaw st).

(** ** [InitRotationMatrix] *)

Definition DCMInvInit : list F :=
  [ 1.0; 0.0; 1.0;
    0.0; 1.0; 0.0;
    0.0; 0.0; 1.0 ].

(** [pDCMInvInit] is the address of the automatic array [DCMInvInit], and
    [pDCMUpdate] that of the array of the call to
    [UpdateRotationMatrix]. *)
Definition InitRotationMatrix (pDCMInvInit pDCMUpdate : address)
           (st : RotationState) : RotationState :=
  let st := enter pDCMInvInit DCMInvInit st in
  (* Initialize the inverse DCM *)
  let st := {| DCM := DCM st;
               DCMInv := arm_mat_init_f32 3 3 pDCMInvInit;
               mem := mem st; automatic := automatic st |} in
  (* Initializes the DCM *)
  let st := UpdateRotationMatrix pDCMUpdate 0.0 0.0 0.0 st in
  leave st.

(** ** Vector helpers *)

Definition Vector3DCrossProduct (srcVector1 srcVector2 : list F) : list F :=
  [ idx srcVector1 1 * idx srcVector2 2 - idx srcVector1 2 * idx srcVector2 1;
    idx srcVector1 2 * idx srcVector2 0 - idx srcVector1 0 * idx srcVector2 2;
    idx srcVector1 0 * idx srcVector2 1 - idx srcVector1 1 * idx srcVector2 0 ].

Definition Vector3DNormalize (srcVector : list F) : list F :=
  let norm := arm_dot_prod_f32 srcVector srcVector 3 in
  let norm := fsqrt norm in
  arm_scale_f32 srcVector (1.0 / norm) 3.

(** ** [GetAttitudeFromMagnetometer] *)

Definition GetAttitudeFromMagnetometer
           (bodyMagneticReadings inertialMagneticVector : list F) : list F :=
  let bodyMagneticNormalized := Vector3DNormalize bodyMagneticReadings in
  let inertialMagneticNormalized := Vector3DNormalize inertialMagneticVector in
  let rotationAxisVector :=
    Vector3DCrossProduct bodyMagneticNormalized inertialMagneticNormalized in
  let dotProd :=
    arm_dot_prod_f32 bodyMagneticNormalized inertialMagneticNormalized 3 in
  let rotationAngle := facos dotProd in
  let cosAngle := fcos rotationAngle in
  let sinAngle := fsin rotationAngle in
  let r11 := cosAngle
             + idx rotationAxisVector 0 * idx rotationAxisVector 0 * (1.0 - cosAngle) in
  let r12 := idx rotationAxisVector 0 * idx rotationAxisVector 1 * (1.0 - cosAngle)
             - idx rotationAxisVector 2 * sinAngle in
  let r13 := idx rotationAxisVector 0 * idx rotationAxisVector 2 * (1.0 - cosAngle)
             + idx rotationAxisVector 1 * sinAngle in
  let r23 := idx rotationAxisVector 1 * idx rotationAxisVector 2 * (1.0 - cosAngle)
             - idx rotationAxisVector 0 * sinAngle in
  let r33 := cosAngle
             + idx rotationAxisVector 2 * idx rotationAxisVector 2 * (1.0 - cosAngle) in
  [ fatan2 r23 r33; fasin (- r13); fatan2 r12 r11 ].

End Code.
End Rotation.

(* ===================================================================== *)
(** * pid_control.c                                                       *)
(* ===================================================================== *)

Module PID.

(** The two compile-time variants of the control law
    ([#if defined(PID_USE_CLASSIC_FORM) ... #elif
    defined(PID_USE_PARALLEL_FORM) ... #endif]), and the build in which
    neither macro is defined. *)
Inductive PIDForm : Type :=
| PID_USE_CLASSIC_FORM
| PID_USE_PARALLEL_FORM
| PID_FORM_UNDEFINED.

Section Code.

Context {F : Type} `{Float32 F}.
Local Open Scope f32_scope.

Notation "0.0" := (fofZ 0).
Notation "1000.0" := (fofZ 1000).

(** [FLIGHT_CONTROL_TASK_PERIOD] (a macro of flight_control.h): the
    control period in milliseconds. *)
Variable FLIGHT_CONTROL_TASK_PERIOD : Z.

Record PIDController_TypeDef : Type := {
  K : F;
  Ti : F;
  Td : F;
  Tt : F;
  Beta : F;
  Gamma : F;
  N : F;
  P : F;
  I : F;
  D : F;
  preState : F;
  preRef : F;
  upperSatLimit : F;
  lowerSatLimit : F;
  ctrlSignalScaling : F;
  ctrlSignalOffset : F;
  useIntegralAction : bool
}.

(** Assignments to the fields [UpdatePIDControl] writes. *)
Definition set_P (c : PIDController_TypeDef) (v : F) :=
  {| K := K c; Ti := Ti c; Td := Td c; Tt := Tt c; Beta := Beta c;
     Gamma := Gamma c; N := N c; P := v; I := I c; D := D c;
     preState := preState c; preRef := preRef c;
     upperSatLimit := upperSatLimit c; lowerSatLimit := lowerSatLimit c;
     ctrlSignalScaling := ctrlSignalScaling c;
     ctrlSignalOffset := ctrlSignalOffset c;
     useIntegralAction := useIntegralAction c |}.

Definition set_I (c : PIDController_TypeDef) (v : F) :=
  {| K := K c; Ti := Ti c; Td := Td c; Tt := Tt c; Beta := Beta c;
     Gamma := Gamma c; N := N c; P := P c; I := v; D := D c;
     preState := preState c; preRef := preRef c;
     upperSatLimit := upperSatLimit c; lowerSatLimit := lowerSatLimit c;
     ctrlSignalScaling := ctrlSignalScaling c;
     ctrlSignalOffset := ctrlSignalOffset c;
     useIntegralAction := useIntegralAction c |}.

Definition set_D (c : PIDController_TypeDef) (v : F) :=
  {| K := K c; Ti := Ti c; Td := Td c; Tt := Tt c; Beta := Beta c;
     Gamma := Gamma c; N := N c; P := P c; I := I c; D := v;
     preState := preState c; preRef := preRef c;
     upperSatLimit := upperSatLimit c; lowerSatLimit := lowerSatLimit c;
     ctrlSignalScaling := ctrlSignalScaling c;
     ctrlSignalOffset := ctrlSignalOffset c;
     useIntegralAction := useIntegralAction c |}.

Definition set_pre (c : PIDController_TypeDef) (st rf : F) :=
  {| K := K c; Ti := Ti c; Td := Td c; Tt := Tt c; Beta := Beta c;
     Gamma := Gamma c; N := N c; P := P c; I := I c; D := D c;
     preState := st; preRef := rf;
     upperSatLimit := upperSatLimit c; lowerSatLimit := lowerSatLimit c;
     ctrlSignalScaling := ctrlSignalScaling c;
     ctrlSignalOffset := ctrlSignalOffset c;
     useIntegralAction := useIntegralAction c |}.

(** ** [UpdatePIDControl]

    The macro [CONTROL_PERIOD] is
    [(float32_t) FLIGHT_CONTROL_TASK_PERIOD/1000.0]; it is expanded in
    place below, with C's left-to-right grouping of [*] and [/]. *)

Local Notation "'period'" := (fofZ FLIGHT_CONTROL_TASK_PERIOD).

(** Integral and derivative parts, classic form. *)
Definition classic_form (c : PIDController_TypeDef) (ctrlState refSignal : F)
  : PIDController_TypeDef :=
  let c :=
    if Ti c >? 0.0
    then set_I c (I c + K c * period / 1000.0 / Ti c * (refSignal - ctrlState))
    else c in
  set_D c (Td c / (Td c + N c * period / 1000.0) * D c
           + K c * Td c * N c / (Td c + N c * period / 1000.0)
             * (Gamma c * (refSignal - preRef c) - (ctrlState - preState c))).

(** Integral and derivative parts, parallel form. *)
Definition parallel_form (c : PIDController_TypeDef) (ctrlState refSignal : F)
  : PIDController_TypeDef :=
  let c :=
    if useIntegralAction c
    then set_I c (I c + Ti c * period / 1000.0 * (refSignal - ctrlState))
    else c in
  set_D c (Td c / (Td c + N c * period / 1000.0) * D c
           + Td c * N c / (Td c + N c * period / 1000.0)
             * (Gamma c * (refSignal - preRef c) - (ctrlState - preState c))).

(** The pre-saturation control signal. *)
Definition raw_signal (c : PIDController_TypeDef) : F :=
  (P c + I c + D c + ctrlSignalOffset c) * ctrlSignalScaling c.

(** The saturation step. *)
Definition saturate (c : PIDController_TypeDef) (controlSignal : F) : F :=
  if controlSignal <? lowerSatLimit c then lowerSatLimit c
  else if controlSignal >? upperSatLimit c then upperSatLimit c
  else controlSignal.

(** The back-calculation step. *)
Definition back_calculation (c : PIDController_TypeDef)
           (tmpControlSignal controlSignal : F) : PIDController_TypeDef :=
  if useIntegralAction c
  then set_I c (I c + period / 1000.0 / Tt c * (tmpControlSignal - controlSignal))
  else c.

Definition UpdatePIDControl (form : PIDForm) (ctrlParams : PIDController_TypeDef)
           (ctrlState refSignal : F) : PIDController_TypeDef * F :=
  (* Calculate Proportional control part *)
  let c := set_P ctrlParams
                 (K ctrlParams * (Beta ctrlParams * refSignal - ctrlState)) in
  let c :=
    match form with
    | PID_USE_CLASSIC_FORM => classic_form c ctrlState refSignal
    | PID_USE_PARALLEL_FORM => parallel_form c ctrlState refSignal
    | PID_FORM_UNDEFINED => c
    end in
  (* Sum of the P-I-D parts plus offset, times the scaling factor *)
  let controlSignal := raw_signal c in
  (* Saturate controller output *)
  let tmpControlSignal := controlSignal in
  let controlSignal := saturate c controlSignal in
  (* Back calculation anti-windup scheme *)
  let c := back_calculation c tmpControlSignal controlSignal in
  (* Update previous control state and reference signal variables *)
  let c := set_pre c ctrlState refSignal in
  (c, controlSignal).

(** [n] control periods with the same state and reference; returns the
    controller and the list of control signals, oldest first. *)
Fixpoint run (form : PIDForm) (n : nat) (c : PIDController_TypeDef)
         (ctrlState refSignal : F) : PIDController_TypeDef * list F :=
  match n with
  | O => (c, [])
  | S n' =>
      let (c1, u) := UpdatePIDControl form c ctrlState refSignal in
      let (c2, us) := run form n' c1 ctrlState refSignal in
      (c2, u :: us)
  end.

(** ** [UpdatePIDControlSignals] *)

(** The four file-scope controllers. *)
Record PIDBank : Type := {
  AltCtrl : PIDController_TypeDef;
  RollCtrl : PIDController_TypeDef;
  PitchCtrl : PIDController_TypeDef;
  YawCtrl : PIDController_TypeDef
}.

(** Modelled from the spec: [CtrlSignals_TypeDef] (declared in
    flight_control.h), the struct of four control signals, with the
    fields the function names. *)
Record CtrlSignals_TypeDef : Type := {
  Thrust : F;
  RollMoment : F;
  PitchMoment : F;
  YawMoment : F
}.

(** What the accessors of state_estimation.h and the reference-signal
    accessors of flight_control.h return during one call. *)
Record Readings : Type := {
  GetRollAngle : F;
  GetPitchAngle : F;
  GetYawAngle : F;
  GetRollAngleReferenceSignal : F;
  GetPitchAngleReferenceSignal : F;
  GetYawAngularRateReferenceSignal : F
}.

Definition UpdatePIDControlSignals (form : PIDForm) (env : Readings)
           (bank : PIDBank) (ctrlSignals : CtrlSignals_TypeDef)
  : PIDBank * CtrlSignals_TypeDef :=
  (* the assignment to Thrust is commented out in the source *)
  let (roll', u_roll) :=
    UpdatePIDControl form (RollCtrl bank)
                     (GetRollAngle env) (GetRollAngleReferenceSignal env) in
  let (pitch', u_pitch) :=
    UpdatePIDControl form (PitchCtrl bank)
                     (GetPitchAngle env) (GetPitchAngleReferenceSignal env) in
  let (yaw', u_yaw) :=
    UpdatePIDControl form (YawCtrl bank)
                     (GetYawAngle env) (GetYawAngularRateReferenceSignal env) in
  ({| AltCtrl := AltCtrl bank; RollCtrl := roll';
      PitchCtrl := pitch'; YawCtrl := yaw' |},
   {| Thrust := Thrust ctrlSignals;
      RollMoment := u_roll;
      PitchMoment := u_pitch;
      YawMoment := u_yaw |}).

End Code.
End PID.

(* ===================================================================== *)
(** * motor_control.c                                                     *)
(* ===================================================================== *)

Module Motor.

Local Open Scope Z_scope.

Definition UINT16_MAX : Z := 65535.

(** Conversions to [uint32_t] and [uint16_t]. *)
Definition u32 (x : Z) : Z := x mod 2 ^ 32.
Definition u16 (x : Z) : Z := x mod 2 ^ 16.

Record MotorControlValues_TypeDef : Type := {
  Motor1 : Z;
  Motor2 : Z;
  Motor3 : Z;
  Motor4 : Z
}.

(** The four output-compare channels of the motor timer
    ([MOTORn_CHANNEL], macros of motor_control.h). *)
Inductive Channel : Type :=
| MOTOR1_CHANNEL | MOTOR2_CHANNEL | MOTOR3_CHANNEL | MOTOR4_CHANNEL.

Definition Channel_eqb (a b : Channel) : bool :=
  match a, b with
  | MOTOR1_CHANNEL, MOTOR1_CHANNEL
  | MOTOR2_CHANNEL, MOTOR2_CHANNEL
  | MOTOR3_CHANNEL, MOTOR3_CHANNEL
  | MOTOR4_CHANNEL, MOTOR4_CHANNEL => true
  | _, _ => false
  end.

(** The capture/compare registers of [MotorControlTimHandle]. *)
Definition TIM_HandleTypeDef : Type := Channel -> Z.

(** Modelled from the spec: [__HAL_TIM_SetCompare] (a macro of the HAL
    timer driver) stores the compare value in the channel's register. *)
Definition HAL_TIM_SetCompare (h : TIM_HandleTypeDef) (ch : Channel) (v : Z)
  : TIM_HandleTypeDef :=
  fun c => if Channel_eqb ch c then v else h c.

(** [MotorControlErrorStatus] (declared in motor_control.h). *)
Inductive MotorControlErrorStatus : Type :=
| MOTORCTRL_OK
| MOTORCTRL_ERROR.

(** A FreeRTOS task handle; [None] is [NULL]. *)
Definition xTaskHandle : Type := option nat.

(** File-scope state of motor_control.c, with the scheduler's set of
    live tasks. *)
Record MotorState : Type := {
  MotorControlValues : MotorControlValues_TypeDef;
  MotorControlTimHandle : TIM_HandleTypeDef;
  MotorControlPrintSamplingTaskHandle : xTaskHandle;
  tasks : list nat
}.

(** Modelled from the spec: [vTaskDelete] (FreeRTOS) deletes the task
    structure: the task leaves the set of live tasks.  The call returns
    to its caller, as it does when another task is deleted. *)
Definition vTaskDelete (h : nat) (live : list nat) : list nat :=
  remove Nat.eq_dec h live.

Section Code.

(** [ESC_MIN_OUTPUT], [ESC_MAX_OUTPUT] (macros of motor_control.h). *)
Variables ESC_MIN_OUTPUT ESC_MAX_OUTPUT : Z.

(** [ESC_MIN_OUTPUT + ctrlVal * (ESC_MAX_OUTPUT - ESC_MIN_OUTPUT) /
    UINT16_MAX], evaluated in 32-bit unsigned arithmetic. *)
Definition ccrVal (ctrlVal : Z) : Z :=
  u32 (ESC_MIN_OUTPUT
       + u32 (ctrlVal * u32 (ESC_MAX_OUTPUT - ESC_MIN_OUTPUT)) / UINT16_MAX).

Definition SetMotor1 (ctrlVal : Z) (st : MotorState) : MotorState :=
  let v := MotorControlValues st in
  {| MotorControlValues :=
       {| Motor1 := ctrlVal; Motor2 := Motor2 v;
          Motor3 := Motor3 v; Motor4 := Motor4 v |};
     MotorControlTimHandle :=
       HAL_TIM_SetCompare (MotorControlTimHandle st) MOTOR1_CHANNEL
                          (u16 (ccrVal ctrlVal));
     MotorControlPrintSamplingTaskHandle :=
       MotorControlPrintSamplingTaskHandle st;
     tasks := tasks st |}.

Definition SetMotor2 (ctrlVal : Z) (st : MotorState) : MotorState :=
  let v := MotorControlValues st in
  {| MotorControlValues :=
       {| Motor1 := Motor1 v; Motor2 := ctrlVal;
          Motor3 := Motor3 v; Motor4 := Motor4 v |};
     MotorControlTimHandle :=
       HAL_TIM_SetCompare (MotorControlTimHandle st) MOTOR2_CHANNEL
                          (ccrVal ctrlVal);
     MotorControlPrintSamplingTaskHandle :=
       MotorControlPrintSamplingTaskHandle st;
     tasks := tasks st |}.

Definition SetMotor3 (ctrlVal : Z) (st : MotorState) : MotorState :=
  let v := MotorControlValues st in
  {| MotorControlValues :=
       {| Motor1 := Motor1 v; Motor2 := Motor2 v;
          Motor3 := ctrlVal; Motor4 := Motor4 v |};
     MotorControlTimHandle :=
       HAL_TIM_SetCompare (MotorControlTimHandle st) MOTOR3_CHANNEL
                          (ccrVal ctrlVal);
     MotorControlPrintSamplingTaskHandle :=
       MotorControlPrintSamplingTaskHandle st;
     tasks := tasks st |}.

Definition SetMotor4 (ctrlVal : Z) (st : MotorState) : MotorState :=
  let v := MotorControlValues st in
  {| MotorControlValues :=
       {| Motor1 := Motor1 v; Motor2 := Motor2 v;
          Motor3 := Motor3 v; Motor4 := ctrlVal |};
     MotorControlTimHandle :=
       HAL_TIM_SetCompare (MotorControlTimHandle st) MOTOR4_CHANNEL
                          (ccrVal ctrlVal);
     MotorControlPrintSamplingTaskHandle :=
       MotorControlPrintSamplingTaskHandle st;
     tasks := tasks st |}.

End Code.

(** ** [StopMotorControlSamplingTask] *)

Definition StopMotorControlSamplingTask (st : MotorState)
  : MotorState * MotorControlErrorStatus :=
  match MotorControlPrintSamplingTaskHandle st with
  | Some h =>
      ({| MotorControlValues := MotorControlValues st;
          MotorControlTimHandle := MotorControlTimHandle st;
          MotorControlPrintSamplingTaskHandle := None;
          tasks := vTaskDelete h (tasks st) |},
       MOTORCTRL_OK)
  | None => (st, MOTORCTRL_ERROR)
  end.

End Motor.


(* ===================================================================== *)
(** * pid_control.c: initialisation                                       *)
(* ===================================================================== *)

Module PIDInit.
Import PID.
Section Code.

Context {F : Type} `{Float32 F}.
Local Open Scope f32_scope.

Notation "0.0" := (fofZ 0).

(** The tuning constants [InitPIDControllers] reads (macros of
    pid_control.h and flight_control.h). *)
Record Constants : Type := {
  K_VZ : F; TI_VZ : F; TD_VZ : F; BETA_VZ : F; GAMMA_VZ : F; N_VZ : F;
  MAX_THRUST : F; MASS : F; G_ACC : F;
  K_RP : F; TI_RP : F; TD_RP : F; BETA_RP : F; GAMMA_RP : F; N_RP : F;
  MAX_ROLLPITCH_MOM : F; IXX : F; IYY : F;
  K_YR : F; TI_YR : F; TD_YR : F; BETA_YR : F; GAMMA_YR : F; N_YR : F;
  MAX_YAW_MOM : F; IZZ : F
}.

(** Modelled from the spec: [arm_sqrt_f32] (CMSIS-DSP library) stores the
    square root of a non-negative input and 0 for a negative one. *)
Definition arm_sqrt_f32 (x : F) : F :=
  if x <? 0.0 then 0.0 else fsqrt x.

Definition InitPIDControllers (k : Constants) : PIDBank :=
  {| AltCtrl :=
       {| K := K_VZ k; Ti := TI_VZ k; Td := TD_VZ k;
          Tt := arm_sqrt_f32 (TI_VZ k * TD_VZ k);
          Beta := BETA_VZ k; Gamma := GAMMA_VZ k; N := N_VZ k;
          P := 0.0; I := 0.0; D := 0.0;
          preState := 0.0; preRef := 0.0;
          upperSatLimit := 0.0;
          lowerSatLimit := - MAX_THRUST k;
          ctrlSignalScaling := MASS k;
          ctrlSignalOffset := - G_ACC k;
          useIntegralAction := false |};
     RollCtrl :=
       {| K := K_RP k; Ti := TI_RP k; Td := TD_RP k;
          Tt := arm_sqrt_f32 (TI_RP k * TD_RP k);
          Beta := BETA_RP k; Gamma := GAMMA_RP k; N := N_RP k;
          P := 0.0; I := 0.0; D := 0.0;
          preState := 0.0; preRef := 0.0;
          upperSatLimit := MAX_ROLLPITCH_MOM k;
          lowerSatLimit := - MAX_ROLLPITCH_MOM k;
          ctrlSignalScaling := IXX k;
          ctrlSignalOffset := 0.0;
          useIntegralAction := false |};
     PitchCtrl :=
       {| K := K_RP k; Ti := TI_RP k; Td := TD_RP k;
          Tt := arm_sqrt_f32 (TI_RP k * TD_RP k);
          Beta := BETA_RP k; Gamma := GAMMA_RP k; N := N_RP k;
          P := 0.0; I := 0.0; D := 0.0;
          preState := 0.0; preRef := 0.0;
          upperSatLimit := MAX_ROLLPITCH_MOM k;
          lowerSatLimit := - MAX_ROLLPITCH_MOM k;
          ctrlSignalScaling := IYY k;
          ctrlSignalOffset := 0.0;
          useIntegralAction := false |};
     YawCtrl :=
       {| K := K_YR k; Ti := TI_YR k; Td := TD_YR k;
          Tt := arm_sqrt_f32 (TI_YR k * TD_YR k);
          Beta := BETA_YR k; Gamma := GAMMA_YR k; N := N_YR k;
          P := 0.0; I := 0.0; D := 0.0;
          preState := 0.0; preRef := 0.0;
          upperSatLimit := MAX_YAW_MOM k;
          lowerSatLimit := - MAX_YAW_MOM k;
          ctrlSignalScaling := IZZ k;
          ctrlSignalOffset := 0.0;
          useIntegralAction := false |} |}.

(** What a controller is tuned with: every field but the running terms
    and the history. *)
Definition tuning (c : PIDController_TypeDef)
  : F * F * F * F * F * F * F * F * F * F * F * bool :=
  (K c, Ti c, Td c, Tt c, Beta c, Gamma c, N c,
   upperSatLimit c, lowerSatLimit c,
   ctrlSignalScaling c, ctrlSignalOffset c, useIntegralAction c).

(** The integral and derivative step of [UpdatePIDControl] in a build. *)
Definition form_step (period_ms : Z) (form : PIDForm)
           (c : PIDController_TypeDef) (s r : F) : PIDController_TypeDef :=
  match form with
  | PID_USE_CLASSIC_FORM => classic_form period_ms c s r
  | PID_USE_PARALLEL_FORM => parallel_form period_ms c s r
  | PID_FORM_UNDEFINED => c
  end.

(** Successive calls of [UpdatePIDControlSignals] on the same struct, one
    per entry of [envs] (the readings during that call); returns the bank
    and the struct after each call, oldest first. *)
Fixpoint control_cycles (period_ms : Z) (form : PIDForm)
         (envs : list Readings) (bank : PIDBank) (s : CtrlSignals_TypeDef)
  : PIDBank * list CtrlSignals_TypeDef :=
  match envs with
  | [] => (bank, [])
  | env :: rest =>
      let (bank1, s1) := UpdatePIDControlSignals period_ms form env bank s in
      let (bank2, out) := control_cycles period_ms form rest bank1 s1 in
      (bank2, s1 :: out)
  end.

End Code.
End PIDInit.

(* ===================================================================== *)
(** * motor_control.c: the print sampling task                            *)
(* ===================================================================== *)

Module MotorSampling.
Import Motor.
Local Open Scope Z_scope.

(** ** [PrintMotorControlValues] *)

Definition MOTOR_CONTROL_PRINT_MAX_STRING_SIZE : nat := 128.

Definition LF : string := String "010"%char EmptyString.
Definition CR : string := String "013"%char EmptyString.

(** Modelled from the spec: the conversion [%u] of the C library prints
    an unsigned value in decimal, without leading zeros. *)
Definition digit (d : Z) : string :=
  String (ascii_of_nat (48 + Z.to_nat d)) EmptyString.

Fixpoint udec_digits (fuel : nat) (n : Z) : string :=
  match fuel with
  | O => EmptyString
  | S fuel' =>
      if n <? 10 then digit n
      else (udec_digits fuel' (n / 10) ++ digit (n mod 10))%string
  end.

(** Ten digits are enough for a 32-bit [unsigned int]. *)
Definition udec (n : Z) : string := udec_digits 10 n.

(** Modelled from the spec: [snprintf] (C library) stores at most
    [size - 1] characters of the formatted text. *)
Definition snprintf (size : nat) (text : string) : string :=
  substring 0 (size - 1) text.

(** The text handed to [USBComSendString]. *)
Definition PrintMotorControlValues (st : MotorState) : string :=
  let v := MotorControlValues st in
  snprintf MOTOR_CONTROL_PRINT_MAX_STRING_SIZE
    ("Motor control (uint16):" ++ LF
     ++ "M1: " ++ udec (Motor1 v) ++ LF
     ++ "M2: " ++ udec (Motor2 v) ++ LF
     ++ "M3: " ++ udec (Motor3 v) ++ LF
     ++ "M4: " ++ udec (Motor4 v) ++ LF ++ CR ++ LF)%string.

(** ** [StartMotorControlSamplingTask] *)

(** The state of motor_control.c with the two file-scope sampling
    parameters and the number of calls of [ErrorHandler] (fcb_error.h). *)
Record SamplingState : Type := {
  motor : MotorState;
  motorControlPrintSampleTime : Z;
  motorControlPrintSampleDuration : Z;
  ErrorHandler_calls : nat
}.

(** [created] is the outcome of [xTaskCreate] (FreeRTOS): [Some h] when it
    returns [pdPASS] and stores the handle [h] of the new task, [None]
    when it fails and stores nothing.  The duration parameter is a
    [uint32_t], the variable that receives it a [uint16_t]. *)
Definition StartMotorControlSamplingTask (sampleTime sampleDuration : Z)
           (created : option nat) (st : SamplingState)
  : SamplingState * MotorControlErrorStatus :=
  let m := motor st in
  match created with
  | Some h =>
      ({| motor :=
            {| MotorControlValues := MotorControlValues m;
               MotorControlTimHandle := MotorControlTimHandle m;
               MotorControlPrintSamplingTaskHandle := Some h;
               tasks := h :: tasks m |};
          motorControlPrintSampleTime := sampleTime;
          motorControlPrintSampleDuration := u16 sampleDuration;
          ErrorHandler_calls := ErrorHandler_calls st |},
       MOTORCTRL_OK)
  | None =>
      ({| motor := m;
          motorControlPrintSampleTime := sampleTime;
          motorControlPrintSampleDuration := u16 sampleDuration;
          ErrorHandler_calls := S (ErrorHandler_calls st) |},
       MOTORCTRL_ERROR)
  end.

(** [StopMotorControlSamplingTask] on the larger state. *)
Definition StopSampling (st : SamplingState)
  : SamplingState * MotorControlErrorStatus :=
  let (m, r) := StopMotorControlSamplingTask (motor st) in
  ({| motor := m;
      motorControlPrintSampleTime := motorControlPrintSampleTime st;
      motorControlPrintSampleDuration := motorControlPrintSampleDuration st;
      ErrorHandler_calls := ErrorHandler_calls st |}, r).

End MotorSampling.

(* ===================================================================== *)
(** * main.c: interrupt callbacks                                         *)
(* ===================================================================== *)

Module Main.

Local Open Scope Z_scope.

(** [enum FcbSensorMessage] (fcb_sensors.h). *)
Definition FCB_SENSOR_GYRO_DATA_READY : Z := 0x0A.
Definition FCB_SENSOR_GYRO_CALIBRATE : Z := 0x0B.
Definition FCB_SENSOR_MAGNETO_ACC_DATA_READY : Z := 0x1A.
Definition FCB_SENSOR_MAGNETO_ACC_CALIBRATE : Z := 0x1B.

Definition u8 (x : Z) : Z := x mod 2 ^ 8.

(** [UserButtonPressed], with the calls the callback makes: the number of
    [BSP_LED_Toggle (LED7)] and the messages given to
    [FcbSendSensorMessageFromISR], latest first. *)
Record ExtiState : Type := {
  UserButtonPressed : Z;
  LED7_toggles : nat;
  sensor_messages : list Z
}.

(** The static counter [kicks] of [HAL_SYSTICK_Callback], with the calls
    the callback makes. *)
Record TickState : Type := {
  kicks : Z;
  LED9_toggles : nat;
  HAL_IncTick_calls : nat;
  xPortSysTickHandler_calls : nat
}.

Section Code.

(** [USER_BUTTON_PIN] and [GPIO_GYRO_DRDY] (macros of the board
    headers). *)
Variables USER_BUTTON_PIN GPIO_GYRO_DRDY : Z.

Definition HAL_GPIO_EXTI_Callback (GPIO_Pin : Z) (st : ExtiState) : ExtiState :=
  if GPIO_Pin =? USER_BUTTON_PIN then
    let pressed := u8 (UserButtonPressed st + 1) in
    if pressed >? 0x7 then
      {| UserButtonPressed := 0x0;
         LED7_toggles := S (LED7_toggles st);
         sensor_messages := sensor_messages st |}
    else
      {| UserButtonPressed := pressed;
         LED7_toggles := LED7_toggles st;
         sensor_messages := sensor_messages st |}
  else if GPIO_Pin =? GPIO_GYRO_DRDY then
    {| UserButtonPressed := UserButtonPressed st;
       LED7_toggles := LED7_toggles st;
       sensor_messages := FCB_SENSOR_GYRO_DATA_READY :: sensor_messages st |}
  else st.

End Code.

(** [scheduler_started] is
    [xTaskGetSchedulerState () != taskSCHEDULER_NOT_STARTED]. *)
Definition HAL_SYSTICK_Callback (scheduler_started : bool) (st : TickState)
  : TickState :=
  let k := Motor.u32 (kicks st + 1) in
  {| kicks := k;
     LED9_toggles :=
       if k mod 1000 =? 0 then S (LED9_toggles st) else LED9_toggles st;
     HAL_IncTick_calls := S (HAL_IncTick_calls st);
     xPortSysTickHandler_calls :=
       if scheduler_started then S (xPortSysTickHandler_calls st)
       else xPortSysTickHandler_calls st |}.

(** A run of callbacks, first element first. *)
Definition exti_run (USER_BUTTON_PIN GPIO_GYRO_DRDY : Z) (pins : list Z)
           (st : ExtiState) : ExtiState :=
  fold_left (fun s pin => HAL_GPIO_EXTI_Callback USER_BUTTON_PIN GPIO_GYRO_DRDY pin s)
            pins st.

Definition tick_run (started : list bool) (st : TickState) : TickState :=
  fold_left (fun s b => HAL_SYSTICK_Callback b s) started st.

End Main.

(* ===================================================================== *)
(** * Vocabulary of the statements                                        *)
(* ===================================================================== *)

(** Matrices, ranges and the sentences of the specification that are
    refuted below, for the rotation transform (real instance). *)
Module RotationSpec.
Import RealModel Rotation.
Local Open Scope R_scope.

Definition identity3 : list R := [1; 0; 0; 0; 1; 0; 0; 0; 1].

Definition zero3 : list R := [0; 0; 0].

(** The squared 2-norm as [arm_dot_prod_f32] accumulates it. *)
Definition sumsq (x y z : R) : R := 0 + x * x + y * y + z * z.

(** The Euler angles the DCM derivation allows. *)
Definition valid_euler_range (roll pitch yaw : R) : Prop :=
  - (PI / 2) < roll < PI / 2 /\
  - (PI / 2) < pitch < PI / 2 /\
  - PI < yaw < PI.

(** The round trip of the specification: the body reading is the inertial
    vector rotated by the DCM of the angles, and the angles come back
    (exact arithmetic stands for "within numerical tolerance"). *)
Definition attitude_round_trip : Prop :=
  forall roll pitch yaw x y z : R,
    valid_euler_range roll pitch yaw ->
    [x; y; z] <> zero3 ->
    GetAttitudeFromMagnetometer
      (mat_vec_mult (DCMUpdate roll pitch yaw) [x; y; z]) [x; y; z]
    = [roll; pitch; yaw].

(** Two arrays of nine cells that do not overlap. *)
Definition separate (p q : address) : Prop :=
  (p + 9 <= q \/ q + 9 <= p)%Z.

(** A 3x3 array whose entries below the diagonal are replaced by the
    entries above it. *)
Definition upper_mirrored (d : list R) : list R :=
  [ nth 0 d 0; nth 1 d 0; nth 2 d 0;
    nth 1 d 0; nth 4 d 0; nth 5 d 0;
    nth 2 d 0; nth 5 d 0; nth 8 d 0 ].

(** The state at reset: the instances are zero-initialised file-scope
    objects and no automatic array of this file is alive. *)
Definition reset_state : RotationState := {|
  DCM := {| numRows := 0%nat; numCols := 0%nat; pData := 0%Z |};
  DCMInv := {| numRows := 0%nat; numCols := 0%nat; pData := 0%Z |};
  mem := fun _ => 0;
  automatic := [] |}.

End RotationSpec.

(** Example controllers and the sentences of the specification that are
    refuted below, for the PID bank (real instance). *)
Module PIDSpec.
Import RealModel PID.
Local Open Scope R_scope.

(** A controller as [InitPIDControllers] leaves one: running terms and
    history at zero, [Tt = sqrt (Ti * Td)], integral action off. *)
Definition flag_off_ctrl : PIDController_TypeDef := {|
  K := 1; Ti := 1; Td := 1; Tt := 1; Beta := 1; Gamma := 1; N := 10;
  P := 0; I := 0; D := 0; preState := 0; preRef := 0;
  upperSatLimit := 1; lowerSatLimit := -1;
  ctrlSignalScaling := 1; ctrlSignalOffset := 0;
  useIntegralAction := false |}.

(** A controller with integral action on, [Tt = sqrt (Ti * Td)], limits
    [-1, 1] and the derivative taken on the measurement only
    ([Gamma = 0]); [p], [i] and [r] are its proportional part, integral
    part and previous reference.  [windup_ctrl 0 0 0] is freshly
    initialised. *)
Definition windup_ctrl (p i r : R) : PIDController_TypeDef := {|
  K := 1; Ti := 1; Td := 1; Tt := 1; Beta := 1; Gamma := 0; N := 10;
  P := p; I := i; D := 0; preState := 0; preRef := r;
  upperSatLimit := 1; lowerSatLimit := -1;
  ctrlSignalScaling := 1; ctrlSignalOffset := 0;
  useIntegralAction := true |}.



(** A controller at rest: integral action off, no integral or derivative
    part, and a history equal to the present state and reference. *)
Definition at_rest (c : PIDController_TypeDef) (s r : R) : Prop :=
  useIntegralAction c = false /\ I c = 0 /\ D c = 0 /\
  preState c = s /\ preRef c = r.

(** The integral step adds nothing to [I]: always so in the parallel form
    of a controller with the flag off, and in the classic form when
    [Ti > 0.0] fails or the reference equals the state. *)
Definition integral_idle (form : PIDForm) (c : PIDController_TypeDef)
           (s r : R) : Prop :=
  match form with
  | PID_USE_CLASSIC_FORM => ~ 0 < Ti c \/ r = s
  | _ => True
  end.

(** "Every field is assigned", for a build with the given control period
    and form: the struct after the call does not depend on the struct
    before it. *)
Definition assigns_all_fields (period_ms : Z) (form : PIDForm) : Prop :=
  forall (env : Readings (F := R)) (bank : PIDBank)
         (s1 s2 : CtrlSignals_TypeDef),
    snd (UpdatePIDControlSignals period_ms form env bank s1)
    = snd (UpdatePIDControlSignals period_ms form env bank s2).

Definition zero_readings : Readings := {|
  GetRollAngle := 0; GetPitchAngle := 0; GetYawAngle := 0;
  GetRollAngleReferenceSignal := 0;
  GetPitchAngleReferenceSignal := 0;
  GetYawAngularRateReferenceSignal := 0 |}.

Definition rest_bank : PIDBank := {|
  AltCtrl := flag_off_ctrl; RollCtrl := flag_off_ctrl;
  PitchCtrl := flag_off_ctrl; YawCtrl := flag_off_ctrl |}.

Definition signals (thrust : R) : CtrlSignals_TypeDef := {|
  Thrust := thrust; RollMoment := 0; PitchMoment := 0; YawMoment := 0 |}.

End PIDSpec.

(** Example states of motor_control.c. *)
Module MotorSpec.
Import Motor.
Local Open Scope Z_scope.

(** No sampling task. *)
Definition idle_motors : MotorState := {|
  MotorControlValues :=
    {| Motor1 := 0; Motor2 := 0; Motor3 := 0; Motor4 := 0 |};
  MotorControlTimHandle := fun _ => 0;
  MotorControlPrintSamplingTaskHandle := None;
  tasks := [] |}.

(** The sampling task is task 4, among three live tasks. *)
Definition sampling_motors : MotorState := {|
  MotorControlValues :=
    {| Motor1 := 0; Motor2 := 0; Motor3 := 0; Motor4 := 0 |};
  MotorControlTimHandle := fun _ => 0;
  MotorControlPrintSamplingTaskHandle := Some 4%nat;
  tasks := [1; 4; 6]%nat |}.

End MotorSpec.

(** Further vocabulary for the rotation transform. *)
Module RotationSpecMore.
Import RealModel Rotation.
Local Open Scope R_scope.

(** Determinant of a 3x3 row-major array. *)
Definition det3 (a : list R) : R :=
  idx a 0 * (idx a 4 * idx a 8 - idx a 5 * idx a 7)
  - idx a 1 * (idx a 3 * idx a 8 - idx a 5 * idx a 6)
  + idx a 2 * (idx a 3 * idx a 7 - idx a 4 * idx a 6).

(** The dot product of two 3-vectors, as [arm_dot_prod_f32] computes
    it. *)
Definition dot3 (u v : list R) : R := arm_dot_prod_f32 u v 3.

End RotationSpecMore.

(** Further vocabulary for the PID bank. *)
Module PIDSpecMore.
Import RealModel PID PIDInit.
Local Open Scope R_scope.


(** A controller that rests at state 0 and reference 0 with output 0. *)
Definition rests_at_zero (c : PIDController_TypeDef) : Prop :=
  PIDSpec.at_rest c 0 0 /\ ctrlSignalOffset c = 0 /\
  lowerSatLimit c <= 0 <= upperSatLimit c.

(** The limits of a controller are [-m] and [m]. *)
Definition symmetric_limits (m : R) (c : PIDController_TypeDef) : Prop :=
  lowerSatLimit c = - m /\ upperSatLimit c = m.

(** Integral action is off and the integral part is 0. *)
Definition integral_unused (c : PIDController_TypeDef) : Prop :=
  useIntegralAction c = false /\ I c = 0.

(** The three moments of a control-signal struct are zero. *)
Definition zero_moments (o : CtrlSignals_TypeDef) : Prop :=
  RollMoment o = 0 /\ PitchMoment o = 0 /\ YawMoment o = 0.

(** The three moments lie within the limits of the constants. *)
Definition moments_within (k : Constants) (o : CtrlSignals_TypeDef) : Prop :=
  - MAX_ROLLPITCH_MOM k <= RollMoment o <= MAX_ROLLPITCH_MOM k /\
  - MAX_ROLLPITCH_MOM k <= PitchMoment o <= MAX_ROLLPITCH_MOM k /\
  - MAX_YAW_MOM k <= YawMoment o <= MAX_YAW_MOM k.

(** Some constants, for the examples. *)
Definition example_constants : Constants := {|
  K_VZ := 1; TI_VZ := 1; TD_VZ := 1; BETA_VZ := 1; GAMMA_VZ := 0; N_VZ := 10;
  MAX_THRUST := 50; MASS := 2; G_ACC := 10;
  K_RP := 8; TI_RP := 1; TD_RP := 1 / 2; BETA_RP := 1; GAMMA_RP := 0;
  N_RP := 10; MAX_ROLLPITCH_MOM := 3; IXX := 1 / 10; IYY := 1 / 10;
  K_YR := 4; TI_YR := 1; TD_YR := 1 / 4; BETA_YR := 1; GAMMA_YR := 0;
  N_YR := 10; MAX_YAW_MOM := 1; IZZ := 1 / 5 |}.

(** Constants with the set-point weights of the roll and pitch
    controllers at one half: these controllers are at equilibrium when
    the angle is half the reference. *)
Definition weighted_constants : Constants := {|
  K_VZ := 1; TI_VZ := 1; TD_VZ := 1; BETA_VZ := 1; GAMMA_VZ := 0; N_VZ := 10;
  MAX_THRUST := 50; MASS := 2; G_ACC := 10;
  K_RP := 1; TI_RP := 1; TD_RP := 1; BETA_RP := 1 / 2; GAMMA_RP := 1 / 2;
  N_RP := 10; MAX_ROLLPITCH_MOM := 1; IXX := 1; IYY := 1;
  K_YR := 4; TI_YR := 1; TD_YR := 1 / 4; BETA_YR := 1; GAMMA_YR := 0;
  N_YR := 10; MAX_YAW_MOM := 1; IZZ := 1 / 5 |}.

(** The roll controller of [weighted_constants] in the course of a run
    at state 1 and reference 2, with tracking time [tt], proportional
    part [p], integral part [i] and history [ps], [pr]. *)
Definition drift_ctrl (tt p i ps pr : R) : PIDController_TypeDef := {|
  K := 1; Ti := 1; Td := 1; Tt := tt; Beta := 1 / 2; Gamma := 1 / 2;
  N := 10;
  P := p; I := i; D := 0; preState := ps; preRef := pr;
  upperSatLimit := 1; lowerSatLimit := - (1);
  ctrlSignalScaling := 1; ctrlSignalOffset := 0;
  useIntegralAction := false |}.

Definition example_readings (roll pitch yaw : R) : Readings := {|
  GetRollAngle := roll; GetPitchAngle := pitch; GetYawAngle := yaw;
  GetRollAngleReferenceSignal := 0;
  GetPitchAngleReferenceSignal := 0;
  GetYawAngularRateReferenceSignal := 0 |}.

End PIDSpecMore.

(** Further example states of motor_control.c. *)
Module MotorSpecMore.
Import Motor MotorSampling MotorSpec.
Local Open Scope Z_scope.

(** No sampling task, two other tasks live. *)
Definition sampling_idle : SamplingState := {|
  motor :=
    {| MotorControlValues := MotorControlValues idle_motors;
       MotorControlTimHandle := MotorControlTimHandle idle_motors;
       MotorControlPrintSamplingTaskHandle := None;
       tasks := [1; 2]%nat |};
  motorControlPrintSampleTime := 0;
  motorControlPrintSampleDuration := 0;
  ErrorHandler_calls := 0 |}.

End MotorSpecMore.
(* ===================================================================== *)
(** * Properties of the rotation transform                                *)
(* ===================================================================== *)

Module RotationProofs.
Import RealModel Rotation RotationSpec.
Import (hints) Binary32.
Local Open Scope R_scope.

(** Unfolds the scalar interface at the real instance. *)
Ltac to_R :=
  cbv [fofZ fadd fsub fmul fdiv fneg fsqrt fltb fcos fsin facos fasin fatan2
       R_Float32 R_Trig32] in *.

(** Splits an equation between two explicit lists into its entries. *)
Ltac list_entries :=
  repeat (apply (f_equal2 (@cons R))); try reflexivity.

(** ** Memory *)

Lemma store_eq (m : memory) (p q : address) (v : R) :
  q = p -> store m p v q = v.
Proof. intros ->. unfold store. now rewrite Z.eqb_refl. Qed.

Lemma store_other (m : memory) (p q : address) (v : R) :
  q <> p -> store m p v q = m q.
Proof.
  intros Hne. unfold store.
  destruct (q =? p)%Z eqn:E; [apply Z.eqb_eq in E; contradiction | reflexivity].
Qed.

(** Resolves loads from explicit chains of stores. *)
Ltac loads :=
  repeat first [ rewrite store_eq by lia | rewrite store_other by lia ].

Lemma store_array_below (vs : list R) :
  forall (m : memory) (p q : address),
    (q < p)%Z -> store_array m p vs q = m q.
Proof.
  induction vs as [| v vs IH]; intros m p q Hlt; [reflexivity |].
  cbn [store_array]. rewrite IH by lia. apply store_other. lia.
Qed.

Lemma load_array_step (m : memory (F := R)) (p : address) (n : nat) :
  load_array m p (S n) = m p :: load_array m (p + 1)%Z n.
Proof.
  unfold load_array. cbn [seq map]. f_equal.
  - f_equal. cbn. lia.
  - rewrite <- seq_shift, map_map. apply map_ext.
    intros i. f_equal. lia.
Qed.

(** An array holds its initialiser. *)
Lemma load_store_array (vs : list R) :
  forall (m : memory) (p : address),
    load_array (store_array m p vs) p (List.length vs) = vs.
Proof.
  induction vs as [| v vs IH]; intros m p; [reflexivity |].
  cbn [store_array List.length]. rewrite load_array_step, IH.
  f_equal. rewrite store_array_below by lia. now apply store_eq.
Qed.

(** ** [UpdateRotationMatrix] *)

Lemma sin_cos_sq (x : R) : sin x * sin x + cos x * cos x = 1.
Proof. pose proof (sin2_cos2 x) as Hx. unfold Rsqr in Hx. exact Hx. Qed.

Lemma DCMUpdate_zero : DCMUpdate 0 0 0 = identity3.
Proof.
  unfold DCMUpdate, identity3. to_R.
  rewrite cos_0, sin_0.
  list_entries; ring.
Qed.

(** ** [arm_mat_trans_f32] on 3x3 instances *)

(** Resolves the load at the head of the goal, store by store. *)
Ltac head_load :=
  repeat lazymatch goal with
    | |- store ?m ?p ?v ?q = _ =>
        first [ transitivity v; [apply store_eq; lia |]
              | transitivity (m q); [apply store_other; lia |] ]
    end;
  try (f_equal; lia).

Ltac run_trans :=
  unfold arm_mat_trans_f32, arm_mat_init_f32;
  cbn [pData numRows numCols trans_rows trans_row load_array map seq
       Nat.mul Nat.add Z.of_nat Pos.of_succ_nat Pos.succ].

(** With source and destination apart, the destination receives the
    transpose and the source is left as it was. *)
Lemma arm_mat_trans_f32_separate
      (m : memory (F := R)) (pIn : address) (pDst : arm_matrix_instance_f32) :
  separate (pData pDst) pIn ->
  load_array (arm_mat_trans_f32 (arm_mat_init_f32 3 3 pIn) pDst m)
             (pData pDst) 9
  = trans_data 3 3 (load_array m pIn 9) /\
  load_array (arm_mat_trans_f32 (arm_mat_init_f32 3 3 pIn) pDst m) pIn 9
  = load_array m pIn 9.
Proof.
  unfold separate. intros Hsep. destruct pDst as [r c pOut].
  cbn [pData] in Hsep. run_trans.
  split; cbn [trans_data flat_map map seq app idx nth Nat.mul Nat.add];
    list_entries; head_load.
Qed.

(** With the destination on the source itself, every entry below the
    diagonal receives the entry above it: the array ends up symmetric. *)
Lemma arm_mat_trans_f32_in_place
      (m : memory (F := R)) (p : address) (pDst : arm_matrix_instance_f32) :
  pData pDst = p ->
  load_array (arm_mat_trans_f32 (arm_mat_init_f32 3 3 p) pDst m) p 9
  = upper_mirrored (load_array m p 9).
Proof.
  intros Hp. destruct pDst as [r c pOut]. cbn [pData] in Hp. subst pOut.
  run_trans. unfold upper_mirrored. cbn [nth].
  list_entries; head_load.
Qed.

(** ** [UpdateRotationMatrix] and [InitRotationMatrix] *)

(** The product of the Euler-angle matrix with its transpose, entry by
    entry, from the three Pythagorean identities. *)
Lemma DCM_times_transpose (roll pitch yaw : R) :
  mat_mult_data 3 (DCMUpdate roll pitch yaw)
                (trans_data 3 3 (DCMUpdate roll pitch yaw))
  = identity3.
Proof.
  pose proof (sin_cos_sq roll) as Hr.
  pose proof (sin_cos_sq pitch) as Hp.
  pose proof (sin_cos_sq yaw) as Hy.
  cbn. to_R.
  generalize dependent (cos roll); generalize dependent (sin roll).
  generalize dependent (cos pitch); generalize dependent (sin pitch).
  generalize dependent (cos yaw); generalize dependent (sin yaw).
  intros sy cy Hy sp cp Hp sr cr Hr.
  unfold identity3. list_entries; nsatz.
Qed.

(** What a call leaves in the instances and in the list of live
    arrays: [DCM] points to the array of the call. *)
Lemma UpdateRotationMatrix_instances
      (pDCMUpdate : address) (roll pitch yaw : R) (st : RotationState) :
  DCM (UpdateRotationMatrix pDCMUpdate roll pitch yaw st)
  = arm_mat_init_f32 3 3 pDCMUpdate /\
  DCMInv (UpdateRotationMatrix pDCMUpdate roll pitch yaw st) = DCMInv st /\
  automatic (UpdateRotationMatrix pDCMUpdate roll pitch yaw st)
  = automatic st.
Proof. repeat split. Qed.

(** After every call, wherever its array is placed (on storage of no
    array that is alive), [DCM] points to an array whose lifetime has
    ended. *)
Lemma UpdateRotationMatrix_leaves_DCM_dangling
      (pDCMUpdate : address) (roll pitch yaw : R) (st : RotationState) :
  ~ In pDCMUpdate (automatic st) ->
  ~ In (pData (DCM (UpdateRotationMatrix pDCMUpdate roll pitch yaw st)))
       (automatic (UpdateRotationMatrix pDCMUpdate roll pitch yaw st)).
Proof. intros Hfresh. exact Hfresh. Qed.

Lemma UpdateRotationMatrix_mem
      (pDCMUpdate : address) (roll pitch yaw : R) (st : RotationState) :
  mem (UpdateRotationMatrix pDCMUpdate roll pitch yaw st)
  = arm_mat_trans_f32 (arm_mat_init_f32 3 3 pDCMUpdate) (DCMInv st)
      (store_array (mem st) pDCMUpdate (DCMUpdate roll pitch yaw)).
Proof. reflexivity. Qed.

(** [DCMInv] bound to storage apart from the array of the call: the
    cells of [DCM] hold the Euler matrix and those of [DCMInv] its
    transpose. *)
Lemma UpdateRotationMatrix_separate
      (pDCMUpdate : address) (roll pitch yaw : R) (st : RotationState) :
  separate (pData (DCMInv st)) pDCMUpdate ->
  load_array (mem (UpdateRotationMatrix pDCMUpdate roll pitch yaw st))
             pDCMUpdate 9
  = DCMUpdate roll pitch yaw /\
  load_array (mem (UpdateRotationMatrix pDCMUpdate roll pitch yaw st))
             (pData (DCMInv st)) 9
  = trans_data 3 3 (DCMUpdate roll pitch yaw).
Proof.
  intros Hsep. rewrite UpdateRotationMatrix_mem.
  destruct (arm_mat_trans_f32_separate
              (store_array (mem st) pDCMUpdate (DCMUpdate roll pitch yaw))
              pDCMUpdate (DCMInv st) Hsep) as [Htrans Hsrc].
  rewrite Htrans, Hsrc.
  change 9%nat with (List.length (DCMUpdate roll pitch yaw)).
  now rewrite load_store_array.
Qed.

(** [DCMInv] bound to the storage the array of the call is placed on: the
    transpose is made in place, and the cells hold the Euler matrix with
    its lower triangle overwritten by the upper one. *)
Lemma UpdateRotationMatrix_in_place
      (pDCMUpdate : address) (roll pitch yaw : R) (st : RotationState) :
  pData (DCMInv st) = pDCMUpdate ->
  load_array (mem (UpdateRotationMatrix pDCMUpdate roll pitch yaw st))
             pDCMUpdate 9
  = upper_mirrored (DCMUpdate roll pitch yaw).
Proof.
  intros Hp. rewrite UpdateRotationMatrix_mem.
  rewrite (arm_mat_trans_f32_in_place _ pDCMUpdate (DCMInv st) Hp).
  change 9%nat with (List.length (DCMUpdate roll pitch yaw)).
  now rewrite load_store_array.
Qed.

Lemma InitRotationMatrix_instances
      (pDCMInvInit pDCMUpdate : address) (st : RotationState) :
  DCM (InitRotationMatrix pDCMInvInit pDCMUpdate st)
  = arm_mat_init_f32 3 3 pDCMUpdate /\
  DCMInv (InitRotationMatrix pDCMInvInit pDCMUpdate st)
  = arm_mat_init_f32 3 3 pDCMInvInit /\
  automatic (InitRotationMatrix pDCMInvInit pDCMUpdate st) = automatic st.
Proof. repeat split. Qed.

(** While the cells are not stored to again, they hold the identity. *)
Lemma InitRotationMatrix_cells
      (pDCMInvInit pDCMUpdate : address) (st : RotationState) :
  separate pDCMInvInit pDCMUpdate ->
  load_array (mem (InitRotationMatrix pDCMInvInit pDCMUpdate st))
             pDCMUpdate 9 = identity3 /\
  load_array (mem (InitRotationMatrix pDCMInvInit pDCMUpdate st))
             pDCMInvInit 9 = identity3.
Proof.
  intros Hsep.
  set (st1 := {| DCM := DCM st;
                 DCMInv := arm_mat_init_f32 3 3 pDCMInvInit;
                 mem := store_array (mem st) pDCMInvInit DCMInvInit;
                 automatic := pDCMInvInit :: automatic st |}).
  change (mem (InitRotationMatrix pDCMInvInit pDCMUpdate st))
    with (mem (UpdateRotationMatrix pDCMUpdate 0 0 0 st1)).
  destruct (UpdateRotationMatrix_separate pDCMUpdate 0 0 0 st1 Hsep)
    as [Hdcm Hinv].
  cbn [DCMInv st1 pData arm_mat_init_f32] in Hinv.
  rewrite Hdcm, Hinv, DCMUpdate_zero. split; reflexivity.
Qed.

(** C7 (failing input).  [InitRotationMatrix ()], from any caller, with
    its array [DCMInvInit] and the array [DCMUpdate] of the call it makes
    placed anywhere (apart from each other, and on storage of no array
    that is alive).  When it returns, the cells [DCM] and [DCMInv] point
    to do hold the identity, but they are the cells of the two automatic
    arrays, whose lifetime has ended: neither is among the live arrays,
    and a nine-element array that a later function places on either
    storage becomes the matrix. *)
Theorem InitRotationMatrix_binds_dead_arrays :
  forall (pDCMInvInit pDCMUpdate : address) (st : RotationState),
    separate pDCMInvInit pDCMUpdate ->
    ~ In pDCMInvInit (automatic st) ->
    ~ In pDCMUpdate (automatic st) ->
    let st' := InitRotationMatrix pDCMInvInit pDCMUpdate st in
    matrix (DCM st') st' = identity3 /\
    matrix (DCMInv st') st' = identity3 /\
    pData (DCM st') = pDCMUpdate /\
    pData (DCMInv st') = pDCMInvInit /\
    ~ In (pData (DCM st')) (automatic st') /\
    ~ In (pData (DCMInv st')) (automatic st') /\
    (forall later : list R,
        List.length later = 9%nat ->
        matrix (DCM st') (enter pDCMUpdate later st') = later /\
        matrix (DCMInv st') (enter pDCMInvInit later st') = later).
Proof.
  intros pInv pUpd st Hsep HInv HUpd st'.
  destruct (InitRotationMatrix_instances pInv pUpd st)
    as (Hdcm & Hdcminv & Hauto).
  destruct (InitRotationMatrix_cells pInv pUpd st Hsep) as [Hc1 Hc2].
  subst st'. unfold matrix.
  rewrite Hdcm, Hdcminv, Hauto.
  cbn [pData numRows numCols arm_mat_init_f32 Nat.mul Nat.add].
  split; [exact Hc1 | split; [exact Hc2 |]].
  split; [reflexivity | split; [reflexivity |]].
  split; [exact HUpd | split; [exact HInv |]].
  intros later Hlen. cbn [mem enter]. rewrite <- Hlen.
  split; apply load_store_array.
Qed.

(** At reset, with [DCMInvInit] at cells 100..108 and [DCMUpdate] at
    cells 91..99: after the call [DCM] points to cell 91 and no automatic
    array is alive. *)
Lemma InitRotationMatrix_binds_dead_arrays_witness :
  pData (DCM (InitRotationMatrix 100%Z 91%Z reset_state)) = 91%Z /\
  automatic (InitRotationMatrix 100%Z 91%Z reset_state) = [].
Proof.
  assert (Hsep : separate 100%Z 91%Z) by (unfold separate; lia).
  assert (Hfresh : forall p : address, ~ In p (automatic reset_state))
    by (intros p []).
  split.
  - exact (proj1 (proj2 (proj2
             (InitRotationMatrix_binds_dead_arrays 100%Z 91%Z reset_state
                Hsep (Hfresh 100%Z) (Hfresh 91%Z))))).
  - reflexivity.
Defined.

(** C6 (failing input).  [InitRotationMatrix ()] followed by
    [UpdateRotationMatrix (0, 0, yaw)] with [sin yaw * cos yaw <> 0],
    the array [DCMUpdate] of the second call placed on the storage that
    [DCMInvInit] had (what two calls from the same place give).
    [DCMInv] still points there, so [arm_mat_trans_f32] transposes the
    array onto itself: [DCM] and [DCMInv] are one and the same array,
    symmetric, which is not the Euler matrix, and [DCM * DCMInv] is not
    the identity. *)
Theorem UpdateRotationMatrix_transposes_in_place :
  forall (pDCMInvInit pDCMUpdate : address) (yaw : R) (st : RotationState),
    sin yaw * cos yaw <> 0 ->
    let st1 := InitRotationMatrix pDCMInvInit pDCMUpdate st in
    let st2 := UpdateRotationMatrix pDCMInvInit 0 0 yaw st1 in
    pData (DCM st2) = pData (DCMInv st2) /\
    matrix (DCM st2) st2
    = [cos yaw; sin yaw; 0; sin yaw; cos yaw; 0; 0; 0; 1] /\
    matrix (DCMInv st2) st2 = matrix (DCM st2) st2 /\
    matrix (DCM st2) st2 <> DCMUpdate 0 0 yaw /\
    mat_mult_data 3 (matrix (DCM st2) st2) (matrix (DCMInv st2) st2)
    <> identity3.
Proof.
  intros pInv pUpd yaw st Hyaw st1 st2.
  assert (Hinv : pData (DCMInv st1) = pInv) by reflexivity.
  pose proof (UpdateRotationMatrix_in_place pInv 0 0 yaw st1 Hinv) as Hm.
  assert (Hdcm : matrix (DCM st2) st2
                 = [cos yaw; sin yaw; 0; sin yaw; cos yaw; 0; 0; 0; 1]).
  { unfold matrix. change (pData (DCM st2)) with pInv.
    change (numRows (DCM st2) * numCols (DCM st2))%nat with 9%nat.
    subst st2. rewrite Hm.
    unfold upper_mirrored, DCMUpdate. cbn [nth]. to_R.
    rewrite cos_0, sin_0. list_entries; ring. }
  assert (Hsame : matrix (DCMInv st2) st2 = matrix (DCM st2) st2)
    by reflexivity.
  split; [reflexivity | split; [exact Hdcm | split; [exact Hsame |]]].
  rewrite Hsame, Hdcm. split.
  - intros Heq. apply (f_equal (fun d => nth 3 d 0)) in Heq.
    unfold DCMUpdate in Heq. cbn [nth] in Heq. to_R.
    rewrite cos_0, sin_0 in Heq. apply Hyaw. nra.
  - intros Heq. apply (f_equal (fun d => nth 1 d 0)) in Heq.
    cbn in Heq. to_R. apply Hyaw. nra.
Qed.

Lemma quarter_turn_half : sin (PI / 4) * cos (PI / 4) <> 0.
Proof.
  pose proof PI_RGT_0 as Hpi.
  apply Rmult_integral_contrapositive_currified; apply Rgt_not_eq.
  - apply sin_gt_0; lra.
  - apply cos_gt_0; lra.
Qed.

(** At reset, arrays at cells 100..108 and 91..99, then a yaw of a
    quarter of pi with the new array at cells 100..108. *)
Lemma UpdateRotationMatrix_transposes_in_place_witness :
  matrix (DCM (UpdateRotationMatrix 100%Z 0 0 (PI / 4)
                 (InitRotationMatrix 100%Z 91%Z reset_state)))
         (UpdateRotationMatrix 100%Z 0 0 (PI / 4)
            (InitRotationMatrix 100%Z 91%Z reset_state))
  = [cos (PI / 4); sin (PI / 4); 0; sin (PI / 4); cos (PI / 4); 0; 0; 0; 1].
Proof.
  exact (proj1 (proj2
           (UpdateRotationMatrix_transposes_in_place
              100%Z 91%Z (PI / 4) reset_state quarter_turn_half))).
Defined.

(** ** [Vector3DNormalize] *)

Lemma sumsq_pos (x y z : R) : [x; y; z] <> zero3 -> 0 < sumsq x y z.
Proof.
  intros Hne. unfold sumsq.
  destruct (Req_dec x 0) as [Hx | Hx];
    [destruct (Req_dec y 0) as [Hy | Hy];
      [destruct (Req_dec z 0) as [Hz | Hz] | ] | ].
  - subst. now contradiction Hne.
  - nra.
  - nra.
  - nra.
Qed.

Lemma norm_pos (x y z : R) : [x; y; z] <> zero3 -> 0 < sqrt (sumsq x y z).
Proof. intros Hne. apply sqrt_lt_R0. now apply sumsq_pos. Qed.

Lemma Vector3DNormalize_eq (x y z : R) :
  Vector3DNormalize [x; y; z]
  = [x * (1 / sqrt (sumsq x y z));
     y * (1 / sqrt (sumsq x y z));
     z * (1 / sqrt (sumsq x y z))].
Proof. reflexivity. Qed.

Lemma dot_normalized (x y z : R) :
  [x; y; z] <> zero3 ->
  arm_dot_prod_f32 (Vector3DNormalize [x; y; z]) (Vector3DNormalize [x; y; z]) 3
  = 1.
Proof.
  intros Hne.
  pose proof (norm_pos x y z Hne) as Hn.
  pose proof (sqrt_sqrt (sumsq x y z) (Rlt_le _ _ (sumsq_pos x y z Hne)))
    as Hsq.
  rewrite Vector3DNormalize_eq.
  unfold arm_dot_prod_f32. cbn [dot_prod_loop]. to_R.
  set (n := sqrt (sumsq x y z)) in *.
  transitivity (sumsq x y z / (n * n)).
  - unfold sumsq. field. lra.
  - rewrite Hsq. field. apply Rgt_not_eq, sumsq_pos, Hne.
Qed.

(** C4 (counterexample).  In binary32 arithmetic the all-zero vector has
    norm 0, [1.0 / norm] is +infinity, and every component written to the
    destination is [0 * infinity], which is NaN. *)
Lemma Vector3DNormalize_zero_is_nan :
  Vector3DNormalize [Binary32.pZero; Binary32.pZero; Binary32.pZero]
  = [Binary32.NaN; Binary32.NaN; Binary32.NaN] /\
  ~ (forall d : Binary32.float32,
        In d (Vector3DNormalize
                [Binary32.pZero; Binary32.pZero; Binary32.pZero]) ->
        Binary32.is_finite d = true).
Proof.
  assert (E : Vector3DNormalize
                [Binary32.pZero; Binary32.pZero; Binary32.pZero]
              = [Binary32.NaN; Binary32.NaN; Binary32.NaN])
    by (vm_compute; reflexivity).
  split; [exact E |].
  intros Hfin. rewrite E in Hfin.
  specialize (Hfin Binary32.NaN (or_introl eq_refl)).
  discriminate Hfin.
Qed.

(** In binary32 the squares of a nonzero vector can underflow to zero: for
    (2^-100, 0, 0) the computed norm is 0 again and the destination is
    (infinity, NaN, NaN).  Unit length is a property of the exact
    arithmetic. *)
Remark Vector3DNormalize_underflow :
  Vector3DNormalize
    [S754_finite false 8388608 (-123); Binary32.pZero; Binary32.pZero]
  = [Binary32.pInf; Binary32.NaN; Binary32.NaN].
Proof. vm_compute. reflexivity. Qed.

(** C4 (amended).  [Vector3DNormalize] has no zero-length guard: it scales
    by the reciprocal of the computed norm unconditionally.  For every
    nonzero source vector the destination is the source scaled by
    [1 / norm], and its 2-norm is 1 (in real arithmetic). *)
Theorem Vector3DNormalize_unit :
  forall x y z : R,
    [x; y; z] <> zero3 ->
    Vector3DNormalize [x; y; z]
    = [x * (1 / sqrt (sumsq x y z));
       y * (1 / sqrt (sumsq x y z));
       z * (1 / sqrt (sumsq x y z))] /\
    sqrt (arm_dot_prod_f32 (Vector3DNormalize [x; y; z])
                           (Vector3DNormalize [x; y; z]) 3) = 1.
Proof.
  intros x y z Hne. split.
  - apply Vector3DNormalize_eq.
  - rewrite (dot_normalized x y z Hne). apply sqrt_1.
Qed.

Lemma Vector3DNormalize_unit_witness :
  [3; 0; 4] <> zero3 /\
  sqrt (arm_dot_prod_f32 (Vector3DNormalize [3; 0; 4])
                         (Vector3DNormalize [3; 0; 4]) 3) = 1.
Proof.
  assert (Hne : [3; 0; 4] <> zero3).
  { unfold zero3. intros Heq. injection Heq as H3 _. lra. }
  split; [exact Hne | exact (proj2 (Vector3DNormalize_unit 3 0 4 Hne))].
Defined.

(** ** [GetAttitudeFromMagnetometer] *)

(** The reading of the reference (1, 0, 0) after a yaw: the first column
    of the DCM. *)
Lemma rotate_yaw_x_axis (yaw : R) :
  mat_vec_mult (DCMUpdate 0 0 yaw) [1; 0; 0] = [cos yaw; - sin yaw; 0].
Proof.
  unfold mat_vec_mult, DCMUpdate, idx.
  cbn [map seq nth Nat.mul Nat.add]. to_R.
  rewrite cos_0, sin_0.
  list_entries; ring.
Qed.

Lemma Vector3DNormalize_yawed (yaw : R) :
  Vector3DNormalize [cos yaw; - sin yaw; 0] = [cos yaw; - sin yaw; 0].
Proof.
  rewrite Vector3DNormalize_eq.
  replace (sumsq (cos yaw) (- sin yaw) 0) with 1
    by (unfold sumsq; pose proof (sin_cos_sq yaw); lra).
  rewrite sqrt_1. list_entries; field.
Qed.

Lemma Vector3DNormalize_x_axis : Vector3DNormalize [1; 0; 0] = [1; 0; 0].
Proof.
  rewrite Vector3DNormalize_eq.
  replace (sumsq 1 0 0) with 1 by (unfold sumsq; lra).
  rewrite sqrt_1. list_entries; field.
Qed.

Lemma atan2_0_pos (x : R) : 0 < x -> atan2 0 x = 0.
Proof.
  intros Hx. unfold atan2. destruct (Rlt_dec 0 x) as [_ | Hn]; [| lra].
  replace (0 / x) with 0 by (field; lra). apply atan_0.
Qed.

(** The yaw returned for a negative sine product is negative. *)
Lemma atan2_neg (y x : R) : y < 0 -> 0 <= x -> atan2 y x < 0.
Proof.
  intros Hy Hx. unfold atan2.
  destruct (Rlt_dec 0 x) as [Hpos | Hnpos].
  - rewrite <- atan_0. apply atan_increasing.
    apply Ropp_lt_cancel. rewrite Ropp_0.
    replace (- (y / x)) with (- y / x) by (field; lra).
    apply Rdiv_lt_0_compat; lra.
  - destruct (Rlt_dec x 0) as [Hneg | _]; [lra |].
    destruct (Rlt_dec 0 y) as [Hypos | _]; [lra |].
    destruct (Rlt_dec y 0) as [_ | Hn]; [| lra].
    pose proof PI_RGT_0. lra.
Qed.

(** The attitude computed for the reference (1, 0, 0) seen after a yaw
    between 0 and a right angle: the axis is (0, 0, sin yaw), of length
    [sin yaw] and not 1, and the angle is [yaw]. *)
Lemma GetAttitude_yawed (yaw : R) :
  0 < yaw <= PI / 2 ->
  GetAttitudeFromMagnetometer [cos yaw; - sin yaw; 0] [1; 0; 0]
  = [0; 0; atan2 (- (sin yaw * sin yaw)) (cos yaw)].
Proof.
  intros Hyaw. pose proof PI_RGT_0 as Hpi.
  assert (Hs : 0 < sin yaw) by (apply sin_gt_0; lra).
  assert (Hc : 0 <= cos yaw) by (apply cos_ge_0; lra).
  assert (Hc1 : cos yaw < 1).
  { rewrite <- cos_0. apply cos_decreasing_1; lra. }
  unfold GetAttitudeFromMagnetometer. cbv zeta.
  rewrite Vector3DNormalize_yawed, Vector3DNormalize_x_axis.
  unfold Vector3DCrossProduct, arm_dot_prod_f32, idx.
  cbn [dot_prod_loop nth]. to_R.
  replace (0 + cos yaw * 1 + - sin yaw * 0 + 0 * 0) with (cos yaw) by ring.
  rewrite acos_cos by lra.
  replace (- sin yaw * 0 - 0 * 0) with 0 by ring.
  replace (0 * 1 - cos yaw * 0) with 0 by ring.
  replace (cos yaw * 0 - - sin yaw * 1) with (sin yaw) by ring.
  replace (0 * sin yaw * (1 - cos yaw) - 0 * sin yaw) with 0 by ring.
  replace (0 * sin yaw * (1 - cos yaw) + 0 * sin yaw) with 0 by ring.
  replace (0 * 0 * (1 - cos yaw) - sin yaw * sin yaw)
    with (- (sin yaw * sin yaw)) by ring.
  replace (cos yaw + 0 * 0 * (1 - cos yaw)) with (cos yaw) by ring.
  rewrite Ropp_0, asin_0, atan2_0_pos; [reflexivity |].
  assert (Hss : 0 < sin yaw * sin yaw) by (apply Rmult_lt_0_compat; lra).
  assert (Hrest : 0 < sin yaw * sin yaw * (1 - cos yaw))
    by (apply Rmult_lt_0_compat; lra).
  lra.
Qed.

(** C2 (failing input).  Roll = pitch = 0 and a yaw between 0 and a right
    angle, reference vector (1, 0, 0), which lies across the axis of the
    rotation: the body reading is (cos yaw, - sin yaw, 0), two distinct
    directions.  The function returns roll 0, pitch 0 and the yaw
    [atan2 (- sin^2 yaw, cos yaw)], which is negative: the positive yaw
    does not come back. *)
Theorem GetAttitude_yaw_reversed :
  forall yaw : R,
    0 < yaw <= PI / 2 ->
    valid_euler_range 0 0 yaw /\
    mat_vec_mult (DCMUpdate 0 0 yaw) [1; 0; 0] = [cos yaw; - sin yaw; 0] /\
    GetAttitudeFromMagnetometer
      (mat_vec_mult (DCMUpdate 0 0 yaw) [1; 0; 0]) [1; 0; 0]
    = [0; 0; atan2 (- (sin yaw * sin yaw)) (cos yaw)] /\
    atan2 (- (sin yaw * sin yaw)) (cos yaw) < 0 /\
    ~ attitude_round_trip.
Proof.
  intros yaw Hyaw. pose proof PI_RGT_0 as Hpi.
  assert (Hs : 0 < sin yaw) by (apply sin_gt_0; lra).
  assert (Hc : 0 <= cos yaw) by (apply cos_ge_0; lra).
  assert (Hrange : valid_euler_range 0 0 yaw)
    by (unfold valid_euler_range; repeat split; lra).
  assert (Hval : GetAttitudeFromMagnetometer
                   (mat_vec_mult (DCMUpdate 0 0 yaw) [1; 0; 0]) [1; 0; 0]
                 = [0; 0; atan2 (- (sin yaw * sin yaw)) (cos yaw)])
    by (rewrite rotate_yaw_x_axis; now apply GetAttitude_yawed).
  assert (Hneg : atan2 (- (sin yaw * sin yaw)) (cos yaw) < 0)
    by (apply atan2_neg; nra).
  split; [exact Hrange | split; [apply rotate_yaw_x_axis |]].
  split; [exact Hval | split; [exact Hneg |]].
  intros Hclaim.
  assert (Hx : [1; 0; 0] <> zero3).
  { unfold zero3. intros Heq. injection Heq; intros; lra. }
  specialize (Hclaim 0 0 yaw 1 0 0 Hrange Hx).
  rewrite Hval in Hclaim.
  injection Hclaim; intros Hback. lra.
Qed.

(** A yaw of a right angle: the reading is (0, -1, 0), across the
    reference, and the yaw returned is [atan2 (-1, 0)], minus a right
    angle. *)
Lemma GetAttitude_yaw_reversed_witness :
  GetAttitudeFromMagnetometer
    (mat_vec_mult (DCMUpdate 0 0 (PI / 2)) [1; 0; 0]) [1; 0; 0]
  = [0; 0; atan2 (- (sin (PI / 2) * sin (PI / 2))) (cos (PI / 2))].
Proof.
  assert (Hyaw : 0 < PI / 2 <= PI / 2) by (pose proof PI_RGT_0; lra).
  exact (proj1 (proj2 (proj2 (GetAttitude_yaw_reversed (PI / 2) Hyaw)))).
Defined.

Remark right_angle_yaw :
  atan2 (- (sin (PI / 2) * sin (PI / 2))) (cos (PI / 2)) = - (PI / 2).
Proof.
  rewrite sin_PI2, cos_PI2. unfold atan2.
  destruct (Rlt_dec 0 0) as [H0 | _]; [lra |].
  destruct (Rlt_dec 0 (- (1 * 1))) as [H1 | _]; [lra |].
  destruct (Rlt_dec (- (1 * 1)) 0) as [_ | H2]; [reflexivity | lra].
Qed.

(** In binary32, with every operation rounded to single precision (the
    square root and the quotient [1.0 / norm], which C evaluates in
    double precision, round to the same single-precision values), the
    argument of [acos] can leave [-1, 1]: for a body reading and a
    reference both (0, 1, 4) the dot product of the normalised vectors is
    1 + 2^-23, and the source passes it to [acos] as it is. *)
Remark aligned_dot_product_above_one :
  let v : list Binary32.float32 := [fofZ 0; fofZ 1; fofZ 4] in
  arm_dot_prod_f32 (Vector3DNormalize v) (Vector3DNormalize v) 3
  = S754_finite false 8388609 (-23) /\
  SFltb (fofZ 1) (S754_finite false 8388609 (-23)) = true.
Proof. vm_compute. split; reflexivity. Qed.

End RotationProofs.

(* ===================================================================== *)
(** * Properties of the PID bank                                          *)
(* ===================================================================== *)

Module PIDProofs.
Import RealModel PID PIDSpec.
Local Open Scope R_scope.

Ltac to_R :=
  cbv [fofZ fadd fsub fmul fdiv fneg fsqrt fltb R_Float32] in *.

Lemma Rltb_true (x y : R) : x < y -> Rltb x y = true.
Proof. intros Hlt. unfold Rltb. now destruct (Rlt_dec x y). Qed.

Lemma Rltb_false (x y : R) : ~ x < y -> Rltb x y = false.
Proof. intros Hge. unfold Rltb. now destruct (Rlt_dec x y). Qed.

(** Decides the comparisons [x <? y] of the real instance. *)
Ltac cmp :=
  repeat match goal with
    | |- context [Rltb ?x ?y] =>
        first [ rewrite (Rltb_true x y) by lra
              | rewrite (Rltb_false x y) by lra ]
    end.

(** Reduces field reads of explicit controller records. *)
Ltac fields :=
  cbn [fst snd set_P set_I set_D set_pre K Ti Td Tt Beta Gamma N P I D
       preState preRef upperSatLimit lowerSatLimit ctrlSignalScaling
       ctrlSignalOffset useIntegralAction].

(** ** The integral-action flag *)

Section AnyScalar.

Context {F : Type} `{Float32 F}.
Variable period_ms : Z.

(** With the flag off, the parallel form and the build without a form
    leave [I] as it was, whatever the arithmetic. *)
Lemma parallel_form_keeps_I (c : PIDController_TypeDef) (s r : F) :
  useIntegralAction c = false ->
  I (fst (UpdatePIDControl period_ms PID_USE_PARALLEL_FORM c s r)) = I c.
Proof.
  intros Hoff. destruct c. cbn in Hoff. subst.
  reflexivity.
Qed.

Lemma undefined_form_keeps_I (c : PIDController_TypeDef) (s r : F) :
  useIntegralAction c = false ->
  I (fst (UpdatePIDControl period_ms PID_FORM_UNDEFINED c s r)) = I c.
Proof.
  intros Hoff. destruct c. cbn in Hoff. subst.
  reflexivity.
Qed.

End AnyScalar.

(** In the classic form the integral step is guarded by [Ti > 0.0], not by
    the flag. *)
Lemma classic_form_changes_I (period_ms : Z) (c : PIDController_TypeDef) (s r : R) :
  useIntegralAction c = false ->
  0 < Ti c ->
  I (fst (UpdatePIDControl period_ms PID_USE_CLASSIC_FORM c s r))
  = I c + K c * IZR period_ms / 1000 / Ti c * (r - s).
Proof.
  intros Hoff HTi. destruct c. cbn in Hoff, HTi. subst.
  unfold UpdatePIDControl, classic_form, back_calculation.
  fields. to_R. cmp; reflexivity.
Qed.

(** C5 (failing input).  Classic-form build, any positive control period,
    the freshly initialised controller [flag_off_ctrl], state 0 and
    reference 1: the flag is off and yet the call moves [I] from 0 to one
    control period (in seconds).  The parallel-form build leaves it
    at 0. *)
Theorem classic_form_ignores_useIntegralAction :
  forall period_ms : Z,
    (0 < period_ms)%Z ->
    useIntegralAction flag_off_ctrl = false /\
    I flag_off_ctrl = 0 /\
    I (fst (UpdatePIDControl period_ms PID_USE_CLASSIC_FORM flag_off_ctrl 0 1))
    = IZR period_ms / 1000 /\
    0 < IZR period_ms / 1000 /\
    I (fst (UpdatePIDControl period_ms PID_USE_PARALLEL_FORM flag_off_ctrl 0 1))
    = 0.
Proof.
  intros period_ms Hpos. apply IZR_lt in Hpos.
  split; [reflexivity | split; [reflexivity | split; [| split]]].
  - rewrite classic_form_changes_I; [| reflexivity | cbn; lra].
    cbn [I K Ti flag_off_ctrl]. field.
  - lra.
  - now rewrite parallel_form_keeps_I.
Qed.

(** A control period of 10 ms: [I] becomes 1/100. *)
Lemma classic_form_ignores_useIntegralAction_witness :
  I (fst (UpdatePIDControl 10 PID_USE_CLASSIC_FORM flag_off_ctrl 0 1))
  = 10 / 1000.
Proof.
  assert (Hpos : (0 < 10)%Z) by reflexivity.
  exact (proj1 (proj2 (proj2
           (classic_form_ignores_useIntegralAction 10 Hpos)))).
Defined.

(** ** Saturation and back-calculation *)

Lemma saturate_above (c : PIDController_TypeDef) (u : R) :
  lowerSatLimit c <= upperSatLimit c -> upperSatLimit c < u ->
  saturate c u = upperSatLimit c.
Proof. intros Hlim Hu. unfold saturate. to_R. cmp; reflexivity. Qed.

Lemma saturate_below (c : PIDController_TypeDef) (u : R) :
  u < lowerSatLimit c -> saturate c u = lowerSatLimit c.
Proof. intros Hu. unfold saturate. to_R. cmp; reflexivity. Qed.

Lemma saturate_inside (c : PIDController_TypeDef) (u : R) :
  lowerSatLimit c <= u <= upperSatLimit c -> saturate c u = u.
Proof. intros Hu. unfold saturate. to_R. cmp; reflexivity. Qed.

(** The step adds [period / Tt * (raw - saturated)] to [I]. *)
Lemma back_calculation_on (period_ms : Z) (c : PIDController_TypeDef) (t u : R) :
  useIntegralAction c = true ->
  I (back_calculation period_ms c t u)
  = I c + IZR period_ms / 1000 / Tt c * (t - u).
Proof.
  intros Hon. unfold back_calculation. rewrite Hon. reflexivity.
Qed.

Lemma tracking_gain_pos (period_ms : Z) (c : PIDController_TypeDef) :
  0 < IZR period_ms -> 0 < Tt c -> 0 < IZR period_ms / 1000 / Tt c.
Proof.
  intros Hp HTt. apply Rdiv_lt_0_compat; [apply Rdiv_lt_0_compat |]; lra.
Qed.

(** With a positive period and tracking time, the step moves [I] up when
    the raw signal is above the upper limit, and down when it is below the
    lower limit: away from the limits, the opposite of back-calculation. *)
Lemma back_calculation_winds_up (period_ms : Z) (c : PIDController_TypeDef) (raw : R) :
  useIntegralAction c = true ->
  0 < IZR period_ms -> 0 < Tt c ->
  lowerSatLimit c <= upperSatLimit c -> upperSatLimit c < raw ->
  I c < I (back_calculation period_ms c raw (saturate c raw)).
Proof.
  intros Hon Hp HTt Hlim Hraw.
  rewrite (back_calculation_on _ _ _ _ Hon), (saturate_above _ _ Hlim Hraw).
  pose proof (tracking_gain_pos period_ms c Hp HTt). nra.
Qed.

Lemma back_calculation_winds_down (period_ms : Z) (c : PIDController_TypeDef) (raw : R) :
  useIntegralAction c = true ->
  0 < IZR period_ms -> 0 < Tt c ->
  raw < lowerSatLimit c ->
  I (back_calculation period_ms c raw (saturate c raw)) < I c.
Proof.
  intros Hon Hp HTt Hraw.
  rewrite (back_calculation_on _ _ _ _ Hon), (saturate_below _ _ Hraw).
  pose proof (tracking_gain_pos period_ms c Hp HTt). nra.
Qed.






(** ** Equilibrium *)

(** The proportional part vanishes at [state = Beta * reference], in every
    build. *)
Lemma P_at_equilibrium (period_ms : Z) (form : PIDForm)
      (c : PIDController_TypeDef) (s r : R) :
  s = Beta c * r ->
  P (fst (UpdatePIDControl period_ms form c s r)) = 0.
Proof.
  intros Heq. destruct c. cbn in Heq. subst s.
  unfold UpdatePIDControl, classic_form, parallel_form, back_calculation.
  destruct form, useIntegralAction0; fields; to_R;
    repeat match goal with
      | |- context [Rltb ?x ?y] => destruct (Rltb x y); fields
      end;
    ring.
Qed.

(** At rest and within the limits, a call changes nothing but [P] and
    returns [ctrlSignalOffset * ctrlSignalScaling]. *)
Lemma rest_step (period_ms : Z) (form : PIDForm)
      (c : PIDController_TypeDef) (s r : R) :
  at_rest c s r ->
  s = Beta c * r ->
  integral_idle form c s r ->
  lowerSatLimit c <= ctrlSignalOffset c * ctrlSignalScaling c
                  <= upperSatLimit c ->
  UpdatePIDControl period_ms form c s r
  = (set_P c 0, ctrlSignalOffset c * ctrlSignalScaling c).
Proof.
  intros (Hoff & HI & HD & Hs & Hr) Heq Hidle Hlim.
  destruct c. cbn in Hoff, HI, HD, Hs, Hr, Heq, Hlim, Hidle. subst.
  unfold UpdatePIDControl, classic_form, parallel_form, back_calculation,
    raw_signal, saturate.
  destruct form; cbn [integral_idle Ti] in Hidle; fields; to_R.
  - destruct (Rlt_dec 0 Ti0) as [HTi | HTi].
    + destruct Hidle as [Hidle | Hidle]; [contradiction |].
      assert (Hz : r - Beta0 * r = 0) by lra. rewrite Hz.
      cmp. fields. cmp. fields.
      unfold set_pre, set_I, set_D, set_P. fields.
      f_equal; [f_equal |]; lra.
    + cmp. fields. cmp. fields.
      unfold set_pre, set_D, set_P. fields.
      f_equal; [f_equal |]; lra.
  - cmp. fields.
    unfold set_pre, set_D, set_P. fields.
    f_equal; [f_equal |]; lra.
  - cmp. fields.
    unfold set_pre, set_P. fields.
    f_equal; [f_equal |]; lra.
Qed.

Lemma rest_run (period_ms : Z) (form : PIDForm) (s r : R) (n : nat) :
  forall c : PIDController_TypeDef,
    at_rest c s r ->
    s = Beta c * r ->
    integral_idle form c s r ->
    lowerSatLimit c <= ctrlSignalOffset c * ctrlSignalScaling c
                    <= upperSatLimit c ->
    snd (run period_ms form n c s r)
    = repeat (ctrlSignalOffset c * ctrlSignalScaling c) n.
Proof.
  induction n as [| n IH]; intros c Hrest Heq Hidle Hlim; [reflexivity |].
  cbn [run]. rewrite (rest_step period_ms form c s r Hrest Heq Hidle Hlim).
  specialize (IH (set_P c 0)).
  destruct (run period_ms form n (set_P c 0) s r) as [c2 us].
  cbn [snd repeat] in *. f_equal.
  apply IH; destruct c; assumption.
Qed.

(** ** [UpdatePIDControlSignals] *)

Section Signals.

Context {F : Type} `{Float32 F}.

(** The struct after the call, field by field, whatever the arithmetic. *)
Lemma UpdatePIDControlSignals_fields
      (period_ms : Z) (form : PIDForm) (env : Readings) (bank : PIDBank)
      (s : CtrlSignals_TypeDef) :
  snd (UpdatePIDControlSignals period_ms form env bank s)
  = {| Thrust := Thrust s;
       RollMoment :=
         snd (UpdatePIDControl period_ms form (RollCtrl bank)
                (GetRollAngle env) (GetRollAngleReferenceSignal env));
       PitchMoment :=
         snd (UpdatePIDControl period_ms form (PitchCtrl bank)
                (GetPitchAngle env) (GetPitchAngleReferenceSignal env));
       YawMoment :=
         snd (UpdatePIDControl period_ms form (YawCtrl bank)
                (GetYawAngle env) (GetYawAngularRateReferenceSignal env)) |}.
Proof.
  unfold UpdatePIDControlSignals.
  destruct (UpdatePIDControl period_ms form (RollCtrl bank) _ _).
  destruct (UpdatePIDControl period_ms form (PitchCtrl bank) _ _).
  destruct (UpdatePIDControl period_ms form (YawCtrl bank) _ _).
  reflexivity.
Qed.

End Signals.

(** C3 (counterexample).  Two calls that differ only in the thrust the
    struct held before return structs with those two thrusts: the field
    keeps its pre-call value, whatever the control period and the form. *)
Lemma Thrust_is_not_assigned :
  (forall (period_ms : Z) (form : PIDForm),
      Thrust (snd (UpdatePIDControlSignals period_ms form
                     zero_readings rest_bank (signals 0))) = 0 /\
      Thrust (snd (UpdatePIDControlSignals period_ms form
                     zero_readings rest_bank (signals 7))) = 7) /\
  ~ (exists (period_ms : Z) (form : PIDForm),
        assigns_all_fields period_ms form).
Proof.
  split.
  - intros period_ms form. now rewrite !UpdatePIDControlSignals_fields.
  - intros (period_ms & form & Hclaim).
    specialize (Hclaim zero_readings rest_bank (signals 0) (signals 7)).
    apply (f_equal Thrust) in Hclaim.
    rewrite !UpdatePIDControlSignals_fields in Hclaim.
    cbn in Hclaim. lra.
Qed.

(** C3 (amended).  Every call to [UpdatePIDControlSignals] assigns
    [RollMoment], [PitchMoment] and [YawMoment], each with the control
    signal of its own controller, and leaves [Thrust] at its pre-call
    value. *)
Theorem UpdatePIDControlSignals_assigns_moments :
  forall (period_ms : Z) (form : PIDForm) (env : Readings (F := R))
         (bank : PIDBank) (s : CtrlSignals_TypeDef),
    RollMoment (snd (UpdatePIDControlSignals period_ms form env bank s))
    = snd (UpdatePIDControl period_ms form (RollCtrl bank)
             (GetRollAngle env) (GetRollAngleReferenceSignal env)) /\
    PitchMoment (snd (UpdatePIDControlSignals period_ms form env bank s))
    = snd (UpdatePIDControl period_ms form (PitchCtrl bank)
             (GetPitchAngle env) (GetPitchAngleReferenceSignal env)) /\
    YawMoment (snd (UpdatePIDControlSignals period_ms form env bank s))
    = snd (UpdatePIDControl period_ms form (YawCtrl bank)
             (GetYawAngle env) (GetYawAngularRateReferenceSignal env)) /\
    Thrust (snd (UpdatePIDControlSignals period_ms form env bank s))
    = Thrust s.
Proof.
  intros. rewrite UpdatePIDControlSignals_fields. repeat split.
Qed.

End PIDProofs.

(* ===================================================================== *)
(** * Properties of the motor output                                      *)
(* ===================================================================== *)

Module MotorProofs.
Import Motor MotorSpec.
Local Open Scope Z_scope.

Section Compare.

Variables ESC_MIN_OUTPUT ESC_MAX_OUTPUT : Z.

(** The constants fit the 32-bit unsigned arithmetic: no difference,
    product or sum below wraps around. *)
Hypothesis Hmin : 0 <= ESC_MIN_OUTPUT <= ESC_MAX_OUTPUT.
Hypothesis Hmax : ESC_MAX_OUTPUT < 2 ^ 32.
Hypothesis Hprod : UINT16_MAX * (ESC_MAX_OUTPUT - ESC_MIN_OUTPUT) < 2 ^ 32.

Local Notation "'ccr'" := (ccrVal ESC_MIN_OUTPUT ESC_MAX_OUTPUT).

Lemma scaled_bounds (v : Z) :
  0 <= v <= UINT16_MAX ->
  0 <= v * (ESC_MAX_OUTPUT - ESC_MIN_OUTPUT) / UINT16_MAX
    <= ESC_MAX_OUTPUT - ESC_MIN_OUTPUT.
Proof.
  intros Hv. unfold UINT16_MAX in *. split.
  - apply Z.div_pos; nia.
  - apply Z.div_le_upper_bound; nia.
Qed.

Lemma ccrVal_exact (v : Z) :
  0 <= v <= UINT16_MAX ->
  ccr v = ESC_MIN_OUTPUT + v * (ESC_MAX_OUTPUT - ESC_MIN_OUTPUT) / UINT16_MAX.
Proof.
  intros Hv. pose proof (scaled_bounds v Hv) as Hq.
  unfold ccrVal, u32.
  rewrite (Z.mod_small (ESC_MAX_OUTPUT - ESC_MIN_OUTPUT)) by lia.
  rewrite (Z.mod_small (v * _)) by (unfold UINT16_MAX in *; nia).
  apply Z.mod_small. lia.
Qed.

Lemma ccrVal_range (v : Z) :
  0 <= v <= UINT16_MAX -> ESC_MIN_OUTPUT <= ccr v <= ESC_MAX_OUTPUT.
Proof.
  intros Hv. rewrite (ccrVal_exact v Hv).
  pose proof (scaled_bounds v Hv). lia.
Qed.

Lemma ccrVal_monotone (v w : Z) :
  0 <= v -> v <= w -> w <= UINT16_MAX -> ccr v <= ccr w.
Proof.
  intros Hv Hvw Hw.
  rewrite (ccrVal_exact v), (ccrVal_exact w) by lia.
  apply Z.add_le_mono_l, Z.div_le_mono; [reflexivity | nia].
Qed.

End Compare.

(** Without the bound on the product the multiplication wraps around and
    the compare value is no longer monotone. *)
Remark ccrVal_wraps :
  ccrVal 0 (2 ^ 17) 1 = 2 /\ ccrVal 0 (2 ^ 17) 32768 = 0.
Proof. split; reflexivity. Qed.

(** C10.  With constants that fit 32-bit unsigned arithmetic and a control
    value in [0, 65535], each [SetMotorN] stores the value in its own
    field of [MotorControlValues] and leaves the other three; the compare
    value is [ESC_MIN_OUTPUT + ctrlVal * (ESC_MAX_OUTPUT - ESC_MIN_OUTPUT)
    / UINT16_MAX] without wrap-around, lies between the two constants and
    does not decrease when the control value grows.  Channels 2 to 4
    receive it as it is, channel 1 its low 16 bits (the same value when
    [ESC_MAX_OUTPUT] fits 16 bits). *)
Theorem SetMotor_compare_value :
  forall (ESC_MIN_OUTPUT ESC_MAX_OUTPUT ctrlVal : Z) (st : MotorState),
    0 <= ESC_MIN_OUTPUT <= ESC_MAX_OUTPUT ->
    ESC_MAX_OUTPUT < 2 ^ 32 ->
    UINT16_MAX * (ESC_MAX_OUTPUT - ESC_MIN_OUTPUT) < 2 ^ 32 ->
    0 <= ctrlVal <= UINT16_MAX ->
    let v := MotorControlValues st in
    let ccr := ccrVal ESC_MIN_OUTPUT ESC_MAX_OUTPUT in
    MotorControlValues (SetMotor1 ESC_MIN_OUTPUT ESC_MAX_OUTPUT ctrlVal st)
    = {| Motor1 := ctrlVal; Motor2 := Motor2 v;
         Motor3 := Motor3 v; Motor4 := Motor4 v |} /\
    MotorControlValues (SetMotor2 ESC_MIN_OUTPUT ESC_MAX_OUTPUT ctrlVal st)
    = {| Motor1 := Motor1 v; Motor2 := ctrlVal;
         Motor3 := Motor3 v; Motor4 := Motor4 v |} /\
    MotorControlValues (SetMotor3 ESC_MIN_OUTPUT ESC_MAX_OUTPUT ctrlVal st)
    = {| Motor1 := Motor1 v; Motor2 := Motor2 v;
         Motor3 := ctrlVal; Motor4 := Motor4 v |} /\
    MotorControlValues (SetMotor4 ESC_MIN_OUTPUT ESC_MAX_OUTPUT ctrlVal st)
    = {| Motor1 := Motor1 v; Motor2 := Motor2 v;
         Motor3 := Motor3 v; Motor4 := ctrlVal |} /\
    ccr ctrlVal
    = ESC_MIN_OUTPUT + ctrlVal * (ESC_MAX_OUTPUT - ESC_MIN_OUTPUT) / UINT16_MAX /\
    ESC_MIN_OUTPUT <= ccr ctrlVal <= ESC_MAX_OUTPUT /\
    (forall w : Z, ctrlVal <= w <= UINT16_MAX -> ccr ctrlVal <= ccr w) /\
    MotorControlTimHandle
      (SetMotor1 ESC_MIN_OUTPUT ESC_MAX_OUTPUT ctrlVal st) MOTOR1_CHANNEL
    = u16 (ccr ctrlVal) /\
    (ESC_MAX_OUTPUT < 2 ^ 16 -> u16 (ccr ctrlVal) = ccr ctrlVal) /\
    MotorControlTimHandle
      (SetMotor2 ESC_MIN_OUTPUT ESC_MAX_OUTPUT ctrlVal st) MOTOR2_CHANNEL
    = ccr ctrlVal /\
    MotorControlTimHandle
      (SetMotor3 ESC_MIN_OUTPUT ESC_MAX_OUTPUT ctrlVal st) MOTOR3_CHANNEL
    = ccr ctrlVal /\
    MotorControlTimHandle
      (SetMotor4 ESC_MIN_OUTPUT ESC_MAX_OUTPUT ctrlVal st) MOTOR4_CHANNEL
    = ccr ctrlVal.
Proof.
  intros lo hi ctrlVal st Hmin Hmax Hprod Hv v ccr.
  repeat (split; [reflexivity |]).
  split; [now apply ccrVal_exact |].
  split; [now apply ccrVal_range |].
  split; [intros w Hw; apply ccrVal_monotone; trivial; lia |].
  split; [reflexivity |].
  split; [| repeat split; reflexivity].
  intros H16. unfold ccr, u16. apply Z.mod_small.
  pose proof (ccrVal_range lo hi Hmin Hmax Hprod ctrlVal Hv). lia.
Qed.

(** Pulses of 1 ms to 2 ms on a 24 MHz counter, half throttle. *)
Lemma SetMotor_compare_value_witness :
  ccrVal 24000 48000 32768 = 36000 /\
  24000 <= ccrVal 24000 48000 32768 <= 48000.
Proof.
  assert (H1 : 0 <= 24000 <= 48000) by lia.
  assert (H2 : 48000 < 2 ^ 32) by lia.
  assert (H3 : UINT16_MAX * (48000 - 24000) < 2 ^ 32) by (vm_compute; reflexivity).
  assert (H4 : 0 <= 32768 <= UINT16_MAX) by (unfold UINT16_MAX; lia).
  pose proof (SetMotor_compare_value 24000 48000 32768 idle_motors
                H1 H2 H3 H4) as Hspec.
  cbv zeta in Hspec.
  destruct Hspec as (_ & _ & _ & _ & Hexact & Hrange & _).
  split; [rewrite Hexact; reflexivity | exact Hrange].
Defined.

(** ** [StopMotorControlSamplingTask] *)

(** C9.  With a non-NULL handle at entry the function deletes that task,
    sets the handle to NULL, leaves the rest of the state and returns
    [MOTORCTRL_OK]; with a NULL handle it returns [MOTORCTRL_ERROR] and the
    state is unchanged. *)
Theorem StopMotorControlSamplingTask_spec :
  forall st : MotorState,
    (forall h : nat,
        MotorControlPrintSamplingTaskHandle st = Some h ->
        snd (StopMotorControlSamplingTask st) = MOTORCTRL_OK /\
        MotorControlPrintSamplingTaskHandle
          (fst (StopMotorControlSamplingTask st)) = None /\
        tasks (fst (StopMotorControlSamplingTask st))
        = vTaskDelete h (tasks st) /\
        ~ In h (tasks (fst (StopMotorControlSamplingTask st))) /\
        MotorControlValues (fst (StopMotorControlSamplingTask st))
        = MotorControlValues st /\
        MotorControlTimHandle (fst (StopMotorControlSamplingTask st))
        = MotorControlTimHandle st) /\
    (MotorControlPrintSamplingTaskHandle st = None ->
     StopMotorControlSamplingTask st = (st, MOTORCTRL_ERROR)).
Proof.
  intros st. unfold StopMotorControlSamplingTask. split.
  - intros h Hh. rewrite Hh. cbn [fst snd tasks MotorControlValues
      MotorControlTimHandle MotorControlPrintSamplingTaskHandle].
    repeat split. unfold vTaskDelete. apply remove_In.
  - intros Hnull. now rewrite Hnull.
Qed.

Lemma StopMotorControlSamplingTask_spec_witness :
  (snd (StopMotorControlSamplingTask sampling_motors) = MOTORCTRL_OK /\
   tasks (fst (StopMotorControlSamplingTask sampling_motors)) = [1; 6]%nat) /\
  StopMotorControlSamplingTask idle_motors = (idle_motors, MOTORCTRL_ERROR).
Proof.
  split.
  - destruct (proj1 (StopMotorControlSamplingTask_spec sampling_motors)
                    4%nat eq_refl) as (Hok & _ & Htasks & _).
    split; [exact Hok | rewrite Htasks; reflexivity].
  - exact (proj2 (StopMotorControlSamplingTask_spec idle_motors) eq_refl).
Defined.

End MotorProofs.

(* ===================================================================== *)
(** * Further properties of the rotation transform                        *)
(* ===================================================================== *)

Module RotationMore.
Import RealModel Rotation RotationSpec RotationSpecMore RotationProofs.
Local Open Scope R_scope.

(** ** [Vector3DCrossProduct] *)

(** X1.  The cross product is orthogonal to both of its operands. *)
Theorem cross_orthogonal :
  forall a b c x y z : R,
    dot3 (Vector3DCrossProduct [a; b; c] [x; y; z]) [a; b; c] = 0 /\
    dot3 (Vector3DCrossProduct [a; b; c] [x; y; z]) [x; y; z] = 0.
Proof.
  intros a b c x y z.
  unfold dot3, arm_dot_prod_f32, Vector3DCrossProduct, idx.
  cbn [dot_prod_loop nth]. to_R. split; ring.
Qed.

(** X2.  Lagrange's identity: the squared length of the cross product is
    the product of the squared lengths minus the squared dot product. *)
Theorem cross_norm :
  forall a b c x y z : R,
    dot3 (Vector3DCrossProduct [a; b; c] [x; y; z])
         (Vector3DCrossProduct [a; b; c] [x; y; z])
    = dot3 [a; b; c] [a; b; c] * dot3 [x; y; z] [x; y; z]
      - dot3 [a; b; c] [x; y; z] * dot3 [a; b; c] [x; y; z].
Proof.
  intros a b c x y z.
  unfold dot3, arm_dot_prod_f32, Vector3DCrossProduct, idx.
  cbn [dot_prod_loop nth]. to_R. ring.
Qed.


(** ** [Vector3DNormalize] *)

Lemma scaled_nonzero (k x y z : R) :
  k <> 0 -> [x; y; z] <> zero3 -> [k * x; k * y; k * z] <> zero3.
Proof.
  intros Hk Hne Heq. apply Hne. unfold zero3 in *.
  injection Heq as Hx Hy Hz.
  apply Rmult_integral in Hx, Hy, Hz.
  destruct Hx as [Hx | Hx], Hy as [Hy | Hy], Hz as [Hz | Hz];
    try contradiction.
  now subst.
Qed.

Lemma norm_scaled (k x y z : R) :
  sqrt (sumsq (k * x) (k * y) (k * z)) = Rabs k * sqrt (sumsq x y z).
Proof.
  replace (sumsq (k * x) (k * y) (k * z)) with (Rsqr k * sumsq x y z)
    by (unfold sumsq, Rsqr; ring).
  rewrite sqrt_mult_alt by apply Rle_0_sqr.
  now rewrite sqrt_Rsqr_abs.
Qed.

Lemma Vector3DNormalize_scaled (k x y z : R) :
  0 < k -> [x; y; z] <> zero3 ->
  Vector3DNormalize [k * x; k * y; k * z] = Vector3DNormalize [x; y; z].
Proof.
  intros Hk Hne. pose proof (norm_pos x y z Hne) as Hn.
  rewrite !Vector3DNormalize_eq, norm_scaled, (Rabs_right k) by lra.
  list_entries; field; lra.
Qed.

Lemma Vector3DNormalize_negated (k x y z : R) :
  k < 0 -> [x; y; z] <> zero3 ->
  Vector3DNormalize [k * x; k * y; k * z]
  = map Ropp (Vector3DNormalize [x; y; z]).
Proof.
  intros Hk Hne. pose proof (norm_pos x y z Hne) as Hn.
  rewrite !Vector3DNormalize_eq, norm_scaled, (Rabs_left k) by lra.
  cbn [map]. list_entries; field; lra.
Qed.

(** X4.  The normalised vector depends on the direction only: scaling a
    nonzero source vector by a positive factor does not change the
    result, and scaling it by a negative factor negates the result. *)
Theorem Vector3DNormalize_scale_invariant :
  forall k x y z : R,
    k <> 0 -> [x; y; z] <> zero3 ->
    Vector3DNormalize [k * x; k * y; k * z]
    = if Rlt_dec 0 k then Vector3DNormalize [x; y; z]
      else map Ropp (Vector3DNormalize [x; y; z]).
Proof.
  intros k x y z Hk Hne.
  destruct (Rlt_dec 0 k) as [Hpos | Hneg].
  - now apply Vector3DNormalize_scaled.
  - apply Vector3DNormalize_negated; [lra | exact Hne].
Qed.

Lemma Vector3DNormalize_scale_invariant_witness :
  Vector3DNormalize [2 * 3; 2 * 0; 2 * 4]
  = if Rlt_dec 0 2 then Vector3DNormalize [3; 0; 4]
    else map Ropp (Vector3DNormalize [3; 0; 4]).
Proof.
  apply Vector3DNormalize_scale_invariant; [lra |].
  unfold zero3. intros Heq. injection Heq as H3 _. lra.
Defined.

(** X5.  Normalising is idempotent on nonzero vectors. *)
Theorem Vector3DNormalize_idempotent :
  forall x y z : R,
    [x; y; z] <> zero3 ->
    Vector3DNormalize (Vector3DNormalize [x; y; z])
    = Vector3DNormalize [x; y; z].
Proof.
  intros x y z Hne.
  pose proof (dot_normalized x y z Hne) as Hdot.
  rewrite Vector3DNormalize_eq in Hdot |- *.
  set (n := 1 / sqrt (sumsq x y z)) in *.
  rewrite Vector3DNormalize_eq.
  unfold arm_dot_prod_f32 in Hdot. cbn [dot_prod_loop] in Hdot. to_R.
  unfold sumsq at 1 2 3. rewrite Hdot, sqrt_1.
  list_entries; field.
Qed.

Lemma Vector3DNormalize_idempotent_witness :
  Vector3DNormalize (Vector3DNormalize [3; 0; 4])
  = Vector3DNormalize [3; 0; 4].
Proof.
  apply Vector3DNormalize_idempotent.
  unfold zero3. intros Heq. injection Heq as H3 _. lra.
Defined.

(** ** [GetAttitudeFromMagnetometer] *)

(** X6.  Only the directions of the two vectors matter: positive scale
    factors on the body reading and on the inertial vector do not change
    the attitude returned. *)
Theorem GetAttitude_scale_invariant :
  forall k l bx by_ bz mx my mz : R,
    0 < k -> 0 < l ->
    [bx; by_; bz] <> zero3 -> [mx; my; mz] <> zero3 ->
    GetAttitudeFromMagnetometer [k * bx; k * by_; k * bz]
                                [l * mx; l * my; l * mz]
    = GetAttitudeFromMagnetometer [bx; by_; bz] [mx; my; mz].
Proof.
  intros k l bx by_ bz mx my mz Hk Hl Hb Hm.
  unfold GetAttitudeFromMagnetometer.
  rewrite (Vector3DNormalize_scaled k bx by_ bz Hk Hb).
  rewrite (Vector3DNormalize_scaled l mx my mz Hl Hm).
  reflexivity.
Qed.

Lemma GetAttitude_scale_invariant_witness :
  GetAttitudeFromMagnetometer [2 * 1; 2 * 0; 2 * 0] [3 * 0; 3 * 1; 3 * 0]
  = GetAttitudeFromMagnetometer [1; 0; 0] [0; 1; 0].
Proof.
  apply GetAttitude_scale_invariant; try lra;
    unfold zero3; intros Heq; injection Heq; intros; lra.
Defined.

(** ** [UpdateRotationMatrix] *)

(** Replaces the sines and cosines of the three angles by variables that
    satisfy the Pythagorean identity. *)
Ltac trig_vars roll pitch yaw :=
  let Hr := fresh "Hr" in
  let Hp := fresh "Hp" in
  let Hy := fresh "Hy" in
  pose proof (sin_cos_sq roll) as Hr;
  pose proof (sin_cos_sq pitch) as Hp;
  pose proof (sin_cos_sq yaw) as Hy;
  generalize dependent (cos roll); generalize dependent (sin roll);
  generalize dependent (cos pitch); generalize dependent (sin pitch);
  generalize dependent (cos yaw); generalize dependent (sin yaw);
  intros.

(** X8.  Round trip between the frames.  When the array [DCMInv] is bound
    to lies apart from the automatic array [DCMUpdate] of the call (as in
    the call [InitRotationMatrix] makes), the cells the two instances
    point to as the function leaves them hold a matrix and its inverse: a
    vector taken to the body frame by [DCM] and back by [DCMInv] is the
    vector itself, and the same the other way round.  The cells of [DCM]
    are those of the automatic array, whose lifetime ends with the
    call. *)
Theorem DCM_round_trip :
  forall (pDCMUpdate : address) (roll pitch yaw : R) (st : RotationState)
         (x y z : R),
    numRows (DCMInv st) = 3%nat -> numCols (DCMInv st) = 3%nat ->
    separate (pData (DCMInv st)) pDCMUpdate ->
    let st' := UpdateRotationMatrix pDCMUpdate roll pitch yaw st in
    mat_vec_mult (matrix (DCMInv st') st')
                 (mat_vec_mult (matrix (DCM st') st') [x; y; z])
    = [x; y; z] /\
    mat_vec_mult (matrix (DCM st') st')
                 (mat_vec_mult (matrix (DCMInv st') st') [x; y; z])
    = [x; y; z].
Proof.
  intros pUpd roll pitch yaw st x y z Hrows Hcols Hsep st'.
  destruct (UpdateRotationMatrix_separate pUpd roll pitch yaw st Hsep)
    as [Hdcm Hinv].
  assert (Ed : matrix (DCM st') st' = DCMUpdate roll pitch yaw)
    by exact Hdcm.
  assert (Ei : matrix (DCMInv st') st'
               = trans_data 3 3 (DCMUpdate roll pitch yaw)).
  { unfold matrix. change (DCMInv st') with (DCMInv st).
    rewrite Hrows, Hcols. exact Hinv. }
  rewrite Ed, Ei.
  cbn. to_R. trig_vars roll pitch yaw.
  split; list_entries; nsatz.
Qed.

(** The call [InitRotationMatrix] makes, at reset: [DCMInv] is bound to
    cells 100..108 and the array of the call is at cells 91..99. *)
Lemma DCM_round_trip_witness :
  let st := {| DCM := DCM reset_state;
               DCMInv := arm_mat_init_f32 3 3 100%Z;
               mem := mem reset_state;
               automatic := [100%Z] |} in
  let st' := UpdateRotationMatrix 91%Z 1 2 3 st in
  mat_vec_mult (matrix (DCMInv st') st')
               (mat_vec_mult (matrix (DCM st') st') [1; 0; 0])
  = [1; 0; 0].
Proof.
  intros st st'.
  refine (proj1 (DCM_round_trip 91%Z 1 2 3 st 1 0 0 _ _ _)).
  - reflexivity.
  - reflexivity.
  - unfold separate. cbn. lia.
Defined.

(** X9.  The nine entries [UpdateRotationMatrix] computes for its array
    [DCMUpdate] preserve dot products, hence lengths and angles. *)
Theorem DCM_preserves_dot :
  forall roll pitch yaw a b c x y z : R,
    dot3 (mat_vec_mult (DCMUpdate roll pitch yaw) [a; b; c])
         (mat_vec_mult (DCMUpdate roll pitch yaw) [x; y; z])
    = dot3 [a; b; c] [x; y; z].
Proof.
  intros roll pitch yaw a b c x y z.
  unfold dot3. cbn. to_R. trig_vars roll pitch yaw.
  nsatz.
Qed.

(** X10.  The nine entries [UpdateRotationMatrix] computes for its array
    [DCMUpdate] are a proper rotation: their determinant is 1. *)
Theorem DCM_determinant :
  forall roll pitch yaw : R,
    det3 (DCMUpdate roll pitch yaw) = 1.
Proof.
  intros roll pitch yaw.
  unfold det3. cbn. to_R. trig_vars roll pitch yaw.
  nsatz.
Qed.

(** X11.  The Z-Y-X convention: the DCM of (roll, pitch, yaw) is the
    product of the DCM of the roll alone, of the pitch alone and of the
    yaw alone, in that order. *)
Theorem DCM_factorisation :
  forall roll pitch yaw : R,
    mat_mult_data 3 (DCMUpdate roll 0 0)
      (mat_mult_data 3 (DCMUpdate 0 pitch 0) (DCMUpdate 0 0 yaw))
    = DCMUpdate roll pitch yaw.
Proof.
  intros roll pitch yaw.
  unfold DCMUpdate. cbn. to_R. rewrite cos_0, sin_0.
  list_entries; ring.
Qed.
End RotationMore.

(* ===================================================================== *)
(** * Further properties of the PID bank                                  *)
(* ===================================================================== *)

Module PIDMore.
Import RealModel PID PIDInit PIDSpec PIDSpecMore PIDProofs.
Local Open Scope R_scope.

Lemma Rltb_cases (x y : R) :
  (x < y /\ Rltb x y = true) \/ (~ x < y /\ Rltb x y = false).
Proof.
  unfold Rltb. destruct (Rlt_dec x y); [left | right]; now split.
Qed.

(** Splits on every comparison of the real instance in the goal. *)
Ltac cmp_cases :=
  repeat match goal with
    | |- context [Rltb ?x ?y] =>
        let H := fresh "Hcmp" in
        destruct (Rltb_cases x y) as [[H ->] | [H ->]]
    end.

(** ** [UpdatePIDControl] *)

Section AnyScalar.

Context {F : Type} `{Float32 F}.
Variable period_ms : Z.

Lemma tuning_fields (c c' : PIDController_TypeDef (F := F)) :
  tuning c' = tuning c ->
  K c' = K c /\ Ti c' = Ti c /\ Td c' = Td c /\ Tt c' = Tt c /\
  Beta c' = Beta c /\ Gamma c' = Gamma c /\ N c' = N c /\
  upperSatLimit c' = upperSatLimit c /\
  lowerSatLimit c' = lowerSatLimit c /\
  ctrlSignalScaling c' = ctrlSignalScaling c /\
  ctrlSignalOffset c' = ctrlSignalOffset c /\
  useIntegralAction c' = useIntegralAction c.
Proof.
  unfold tuning. intros Ht.
  injection Ht as HK HTi HTd HTt HBeta HGamma HN Hup Hlo Hsc Hoff Hflag.
  repeat split; assumption.
Qed.

Lemma tuning_classic_form (c : PIDController_TypeDef) (s r : F) :
  tuning (classic_form period_ms c s r) = tuning c.
Proof. unfold classic_form. now destruct (fltb _ _). Qed.

Lemma tuning_parallel_form (c : PIDController_TypeDef) (s r : F) :
  tuning (parallel_form period_ms c s r) = tuning c.
Proof. unfold parallel_form. now destruct (useIntegralAction c). Qed.

Lemma tuning_form_step (form : PIDForm) (c : PIDController_TypeDef)
      (s r : F) :
  tuning (form_step period_ms form c s r) = tuning c.
Proof.
  destruct form; cbn [form_step];
    [apply tuning_classic_form | apply tuning_parallel_form | reflexivity].
Qed.

Lemma tuning_back_calculation (c : PIDController_TypeDef) (t u : F) :
  tuning (back_calculation period_ms c t u) = tuning c.
Proof. unfold back_calculation. now destruct (useIntegralAction c). Qed.

(** [UpdatePIDControl] as the composition of its steps. *)
Lemma UpdatePIDControl_steps (form : PIDForm)
      (c : PIDController_TypeDef) (s r : F) :
  UpdatePIDControl period_ms form c s r
  = let c1 := form_step period_ms form
                (set_P c (fmul (K c) (fsub (fmul (Beta c) r) s))) s r in
    let u := saturate c1 (raw_signal c1) in
    (set_pre (back_calculation period_ms c1 (raw_signal c1) u) s r, u).
Proof. destruct form; reflexivity. Qed.

Lemma UpdatePIDControl_tuning (form : PIDForm)
      (c : PIDController_TypeDef) (s r : F) :
  tuning (fst (UpdatePIDControl period_ms form c s r)) = tuning c.
Proof.
  rewrite UpdatePIDControl_steps. cbv zeta. cbn [fst].
  change (tuning (set_pre ?x s r)) with (tuning x).
  now rewrite tuning_back_calculation, tuning_form_step.
Qed.

(** The value returned is the saturation of some raw signal, by limits
    that are those of the controller at entry. *)
Lemma UpdatePIDControl_saturated (form : PIDForm)
      (c : PIDController_TypeDef) (s r : F) :
  exists (c1 : PIDController_TypeDef) (u : F),
    snd (UpdatePIDControl period_ms form c s r) = saturate c1 u /\
    lowerSatLimit c1 = lowerSatLimit c /\
    upperSatLimit c1 = upperSatLimit c.
Proof.
  rewrite UpdatePIDControl_steps. cbv zeta. cbn [snd].
  eexists. eexists. split; [reflexivity |].
  destruct (tuning_fields _ _
              (tuning_form_step form
                 (set_P c (fmul (K c) (fsub (fmul (Beta c) r) s))) s r))
    as (_ & _ & _ & _ & _ & _ & _ & Hup & Hlo & _).
  split; assumption.
Qed.

(** X13.  A call never changes the tuning of the controller: gain, times,
    weights, filter constant, limits, scaling, offset and the
    integral-action flag are what they were, in every build and whatever
    the arithmetic; the history holds the state and reference of the
    call. *)
Theorem UpdatePIDControl_keeps_tuning :
  forall (form : PIDForm) (c : PIDController_TypeDef) (s r : F),
    K (fst (UpdatePIDControl period_ms form c s r)) = K c /\
    Ti (fst (UpdatePIDControl period_ms form c s r)) = Ti c /\
    Td (fst (UpdatePIDControl period_ms form c s r)) = Td c /\
    Tt (fst (UpdatePIDControl period_ms form c s r)) = Tt c /\
    Beta (fst (UpdatePIDControl period_ms form c s r)) = Beta c /\
    Gamma (fst (UpdatePIDControl period_ms form c s r)) = Gamma c /\
    N (fst (UpdatePIDControl period_ms form c s r)) = N c /\
    upperSatLimit (fst (UpdatePIDControl period_ms form c s r))
    = upperSatLimit c /\
    lowerSatLimit (fst (UpdatePIDControl period_ms form c s r))
    = lowerSatLimit c /\
    ctrlSignalScaling (fst (UpdatePIDControl period_ms form c s r))
    = ctrlSignalScaling c /\
    ctrlSignalOffset (fst (UpdatePIDControl period_ms form c s r))
    = ctrlSignalOffset c /\
    useIntegralAction (fst (UpdatePIDControl period_ms form c s r))
    = useIntegralAction c /\
    preState (fst (UpdatePIDControl period_ms form c s r)) = s /\
    preRef (fst (UpdatePIDControl period_ms form c s r)) = r.
Proof.
  intros form c s r.
  destruct (tuning_fields _ _ (UpdatePIDControl_tuning form c s r))
    as (HK & HTi & HTd & HTt & HBeta & HGamma & HN & Hup & Hlo & Hsc
        & Hoff & Hflag).
  repeat (split; [assumption |]).
  rewrite UpdatePIDControl_steps. split; reflexivity.
Qed.

Lemma form_step_set_P (form : PIDForm) (c : PIDController_TypeDef)
      (v s r : F) :
  I (form_step period_ms form (set_P c v) s r)
  = I (form_step period_ms form c s r) /\
  D (form_step period_ms form (set_P c v) s r)
  = D (form_step period_ms form c s r).
Proof.
  unfold form_step, classic_form, parallel_form.
  destruct form; fields;
    repeat match goal with
      | |- context [if ?b then _ else _] => destruct b; fields
      end;
    split; reflexivity.
Qed.

End AnyScalar.

Lemma saturate_bounds (c : PIDController_TypeDef) (u : R) :
  lowerSatLimit c <= upperSatLimit c ->
  lowerSatLimit c <= saturate c u <= upperSatLimit c.
Proof.
  intros Hlim. unfold saturate. to_R. cmp_cases; lra.
Qed.



Lemma saturate_strict (c : PIDController_TypeDef) (u : R) :
  lowerSatLimit c < saturate c u < upperSatLimit c -> saturate c u = u.
Proof.
  unfold saturate. to_R. cmp_cases; intros Hin; lra.
Qed.

Lemma back_calculation_idle (period_ms : Z) (c : PIDController_TypeDef)
      (u : R) :
  I (back_calculation period_ms c u u) = I c /\
  D (back_calculation period_ms c u u) = D c.
Proof.
  unfold back_calculation. destruct (useIntegralAction c); fields.
  - to_R. split; [ring | reflexivity].
  - split; reflexivity.
Qed.

(** X14.  While the control signal returned is strictly inside the
    saturation limits, back-calculation is idle: after the call the
    integral part is what the integration step of the build made of it
    (for a tracking time [Tt] other than 0). *)
Theorem back_calculation_idle_within_limits :
  forall (period_ms : Z) (form : PIDForm) (c : PIDController_TypeDef)
         (s r : R),
    Tt c <> 0 ->
    lowerSatLimit c < snd (UpdatePIDControl period_ms form c s r)
                    < upperSatLimit c ->
    I (fst (UpdatePIDControl period_ms form c s r))
    = I (form_step period_ms form c s r).
Proof.
  intros period_ms form c s r _ Hin.
  rewrite UpdatePIDControl_steps in *. cbv zeta in *. cbn [fst snd] in *.
  set (c1 := form_step period_ms form _ s r) in *.
  destruct (tuning_fields _ _
              (tuning_form_step period_ms form
                 (set_P c (K c * (Beta c * r - s))%f32) s r))
    as (_ & _ & _ & _ & _ & _ & _ & Hup & Hlo & _).
  fold c1 in Hup, Hlo.
  cbn [set_P upperSatLimit lowerSatLimit] in Hup, Hlo.
  rewrite <- Hlo, <- Hup in Hin.
  rewrite (saturate_strict c1 (raw_signal c1) Hin).
  change (I (set_pre ?x s r)) with (I x).
  rewrite (proj1 (back_calculation_idle period_ms c1 (raw_signal c1))).
  subst c1.
  exact (proj1 (form_step_set_P period_ms form c _ s r)).
Qed.

Lemma back_calculation_idle_within_limits_witness :
  I (fst (UpdatePIDControl 10 PID_USE_PARALLEL_FORM
            (windup_ctrl 0 0 0) 0 (1 / 2)))
  = I (form_step 10 PID_USE_PARALLEL_FORM (windup_ctrl 0 0 0) 0 (1 / 2)).
Proof.
  apply back_calculation_idle_within_limits.
  - cbn. lra.
  - unfold UpdatePIDControl, parallel_form, back_calculation, raw_signal,
      saturate, windup_ctrl.
    fields. to_R. cmp. fields. cmp. lra.
Defined.

(** ** The derivative filter *)








(** ** [InitPIDControllers] followed by [UpdatePIDControlSignals] *)

Lemma UpdatePIDControlSignals_bank
      (period_ms : Z) (form : PIDForm) (env : Readings (F := R))
      (bank : PIDBank) (s : CtrlSignals_TypeDef) :
  fst (UpdatePIDControlSignals period_ms form env bank s)
  = {| AltCtrl := AltCtrl bank;
       RollCtrl :=
         fst (UpdatePIDControl period_ms form (RollCtrl bank)
                (GetRollAngle env) (GetRollAngleReferenceSignal env));
       PitchCtrl :=
         fst (UpdatePIDControl period_ms form (PitchCtrl bank)
                (GetPitchAngle env) (GetPitchAngleReferenceSignal env));
       YawCtrl :=
         fst (UpdatePIDControl period_ms form (YawCtrl bank)
                (GetYawAngle env) (GetYawAngularRateReferenceSignal env)) |}.
Proof.
  unfold UpdatePIDControlSignals.
  destruct (UpdatePIDControl period_ms form (RollCtrl bank) _ _).
  destruct (UpdatePIDControl period_ms form (PitchCtrl bank) _ _).
  destruct (UpdatePIDControl period_ms form (YawCtrl bank) _ _).
  reflexivity.
Qed.

Section Cycles.

Variable period_ms : Z.
Variable form : PIDForm.

(** Invariants of the three controllers in use, the readings they hold
    for, and what they say of each control signal. *)
Variables IR IP IY : PIDController_TypeDef (F := R) -> Prop.
Variable E : Readings (F := R) -> Prop.
Variables QR QP QY : R -> Prop.

Hypothesis roll_step :
  forall env c, E env -> IR c ->
    IR (fst (UpdatePIDControl period_ms form c (GetRollAngle env)
               (GetRollAngleReferenceSignal env))) /\
    QR (snd (UpdatePIDControl period_ms form c (GetRollAngle env)
               (GetRollAngleReferenceSignal env))).
Hypothesis pitch_step :
  forall env c, E env -> IP c ->
    IP (fst (UpdatePIDControl period_ms form c (GetPitchAngle env)
               (GetPitchAngleReferenceSignal env))) /\
    QP (snd (UpdatePIDControl period_ms form c (GetPitchAngle env)
               (GetPitchAngleReferenceSignal env))).
Hypothesis yaw_step :
  forall env c, E env -> IY c ->
    IY (fst (UpdatePIDControl period_ms form c (GetYawAngle env)
               (GetYawAngularRateReferenceSignal env))) /\
    QY (snd (UpdatePIDControl period_ms form c (GetYawAngle env)
               (GetYawAngularRateReferenceSignal env))).

(** Induction over successive calls of [UpdatePIDControlSignals]. *)
Lemma control_cycles_ind (envs : list Readings) :
  Forall E envs ->
  forall (bank : PIDBank) (s : CtrlSignals_TypeDef),
    IR (RollCtrl bank) -> IP (PitchCtrl bank) -> IY (YawCtrl bank) ->
    IR (RollCtrl (fst (control_cycles period_ms form envs bank s))) /\
    IP (PitchCtrl (fst (control_cycles period_ms form envs bank s))) /\
    IY (YawCtrl (fst (control_cycles period_ms form envs bank s))) /\
    AltCtrl (fst (control_cycles period_ms form envs bank s))
    = AltCtrl bank /\
    Forall (fun o => QR (RollMoment o) /\ QP (PitchMoment o) /\
                     QY (YawMoment o) /\ Thrust o = Thrust s)
           (snd (control_cycles period_ms form envs bank s)).
Proof.
  induction 1 as [| env envs Henv Henvs IH]; intros bank s HR HP HY.
  - cbn. repeat split; trivial.
  - cbn [control_cycles].
    pose proof (UpdatePIDControlSignals_bank period_ms form env bank s)
      as Hbank.
    pose proof (UpdatePIDControlSignals_fields period_ms form env bank s)
      as Hout.
    destruct (UpdatePIDControlSignals period_ms form env bank s)
      as [bank1 s1].
    cbn [fst snd] in Hbank, Hout.
    destruct (roll_step env _ Henv HR) as [HR1 HQR].
    destruct (pitch_step env _ Henv HP) as [HP1 HQP].
    destruct (yaw_step env _ Henv HY) as [HY1 HQY].
    specialize (IH bank1 s1).
    destruct (control_cycles period_ms form envs bank1 s1) as [bank2 out].
    cbn [fst snd] in *. subst bank1 s1.
    cbn [RollCtrl PitchCtrl YawCtrl AltCtrl Thrust RollMoment PitchMoment
         YawMoment] in *.
    destruct (IH HR1 HP1 HY1) as (HR2 & HP2 & HY2 & HAlt & Hall).
    repeat split; trivial.
    constructor; [cbn; repeat split; trivial | exact Hall].
Qed.

End Cycles.

Lemma rests_at_zero_step (period_ms : Z) (form : PIDForm)
      (c : PIDController_TypeDef) :
  rests_at_zero c ->
  rests_at_zero (fst (UpdatePIDControl period_ms form c 0 0)) /\
  snd (UpdatePIDControl period_ms form c 0 0) = 0.
Proof.
  intros (Hrest & Hoff & Hlim).
  rewrite (rest_step period_ms form c 0 0 Hrest).
  - cbn [fst snd]. rewrite Hoff. split; [| ring].
    destruct c. exact (conj Hrest (conj Hoff Hlim)).
  - ring.
  - destruct form; cbn; trivial. now right.
  - rewrite Hoff. lra.
Qed.

(** X16.  The resting value, in the real-number reading of [float32_t]
    and for derivative filters whose denominator
    [Td + N * CONTROL_PERIOD] is not zero: after [InitPIDControllers], as
    long as every angle and reference read is 0, every call of
    [UpdatePIDControlSignals] returns the roll, pitch and yaw moments 0,
    in every build (for non-negative moment limits). *)
Theorem moments_rest_at_zero :
  forall (k : Constants) (period_ms : Z) (form : PIDForm) (n : nat)
         (s : CtrlSignals_TypeDef),
    TD_RP k + N_RP k * IZR period_ms / 1000 <> 0 ->
    TD_YR k + N_YR k * IZR period_ms / 1000 <> 0 ->
    0 <= MAX_ROLLPITCH_MOM k -> 0 <= MAX_YAW_MOM k ->
    Forall zero_moments
           (snd (control_cycles period_ms form (repeat zero_readings n)
                   (InitPIDControllers k) s)).
Proof.
  intros k period_ms form n s _ _ Hrp Hyaw.
  pose proof (control_cycles_ind period_ms form
                rests_at_zero rests_at_zero rests_at_zero
                (fun env => env = zero_readings)
                (fun u => u = 0) (fun u => u = 0) (fun u => u = 0))
    as Hind.
  destruct (Hind
              ltac:(intros env c -> Hc; now apply rests_at_zero_step)
              ltac:(intros env c -> Hc; now apply rests_at_zero_step)
              ltac:(intros env c -> Hc; now apply rests_at_zero_step)
              (repeat zero_readings n)
              ltac:(apply Forall_forall; intros env Hin;
                    now apply repeat_spec in Hin)
              (InitPIDControllers k) s)
    as (_ & _ & _ & _ & Hall).
  - unfold rests_at_zero, at_rest. cbn. to_R. repeat split; trivial; lra.
  - unfold rests_at_zero, at_rest. cbn. to_R. repeat split; trivial; lra.
  - unfold rests_at_zero, at_rest. cbn. to_R. repeat split; trivial; lra.
  - eapply Forall_impl; [| exact Hall].
    intros o (HR & HP & HY & _). now repeat split.
Qed.

Lemma moments_rest_at_zero_witness :
  Forall zero_moments
         (snd (control_cycles 10 PID_USE_CLASSIC_FORM
                 (repeat zero_readings 2)
                 (InitPIDControllers example_constants) (signals 0))).
Proof.
  apply moments_rest_at_zero; cbn; lra.
Defined.

Lemma symmetric_limits_step (period_ms : Z) (form : PIDForm) (m : R)
      (c : PIDController_TypeDef) (s r : R) :
  0 <= m ->
  symmetric_limits m c ->
  symmetric_limits m (fst (UpdatePIDControl period_ms form c s r)) /\
  - m <= snd (UpdatePIDControl period_ms form c s r) <= m.
Proof.
  intros Hm [Hlo Hup]. split.
  - destruct (tuning_fields _ _
                (UpdatePIDControl_tuning period_ms form c s r))
      as (_ & _ & _ & _ & _ & _ & _ & Hup1 & Hlo1 & _).
    unfold symmetric_limits. now rewrite Hup1, Hlo1.
  - destruct (UpdatePIDControl_saturated period_ms form c s r)
      as (c1 & u & -> & Hlo1 & Hup1).
    rewrite <- Hlo, <- Hup, <- Hlo1, <- Hup1.
    apply saturate_bounds. rewrite Hlo1, Hup1, Hlo, Hup. lra.
Qed.

(** X17.  In the real-number reading of [float32_t] (finite constants
    and readings) and for derivative filters whose denominator
    [Td + N * CONTROL_PERIOD] is not zero: after [InitPIDControllers],
    whatever angles and references are read and however many calls of
    [UpdatePIDControlSignals] are made, every roll and pitch moment
    returned lies within [+-MAX_ROLLPITCH_MOM] and every yaw moment
    within [+-MAX_YAW_MOM], in every build (for non-negative limits). *)
Theorem moments_always_within_limits :
  forall (k : Constants) (period_ms : Z) (form : PIDForm)
         (envs : list Readings) (s : CtrlSignals_TypeDef),
    TD_RP k + N_RP k * IZR period_ms / 1000 <> 0 ->
    TD_YR k + N_YR k * IZR period_ms / 1000 <> 0 ->
    0 <= MAX_ROLLPITCH_MOM k -> 0 <= MAX_YAW_MOM k ->
    Forall (moments_within k)
           (snd (control_cycles period_ms form envs
                   (InitPIDControllers k) s)).
Proof.
  intros k period_ms form envs s _ _ Hrp Hyaw.
  destruct (control_cycles_ind period_ms form
              (symmetric_limits (MAX_ROLLPITCH_MOM k))
              (symmetric_limits (MAX_ROLLPITCH_MOM k))
              (symmetric_limits (MAX_YAW_MOM k))
              (fun _ => True)
              (fun u => - MAX_ROLLPITCH_MOM k <= u <= MAX_ROLLPITCH_MOM k)
              (fun u => - MAX_ROLLPITCH_MOM k <= u <= MAX_ROLLPITCH_MOM k)
              (fun u => - MAX_YAW_MOM k <= u <= MAX_YAW_MOM k)
              ltac:(intros env c _ Hc; now apply symmetric_limits_step)
              ltac:(intros env c _ Hc; now apply symmetric_limits_step)
              ltac:(intros env c _ Hc; now apply symmetric_limits_step)
              envs
              ltac:(apply Forall_forall; trivial)
              (InitPIDControllers k) s)
    as (_ & _ & _ & _ & Hall).
  - split; reflexivity.
  - split; reflexivity.
  - split; reflexivity.
  - eapply Forall_impl; [| exact Hall].
    intros o (HR & HP & HY & _). unfold moments_within. tauto.
Qed.

Lemma moments_always_within_limits_witness :
  Forall (moments_within example_constants)
         (snd (control_cycles 10 PID_USE_PARALLEL_FORM
                 [example_readings 1 (-2) 3; example_readings 0 5 (-1)]
                 (InitPIDControllers example_constants) (signals 0))).
Proof.
  apply moments_always_within_limits; cbn; lra.
Defined.

Lemma integral_unused_step (period_ms : Z) (c : PIDController_TypeDef)
      (s r : R) :
  integral_unused c ->
  integral_unused
    (fst (UpdatePIDControl period_ms PID_USE_PARALLEL_FORM c s r)).
Proof.
  intros [Hoff HI]. split.
  - destruct (tuning_fields _ _
                (UpdatePIDControl_tuning period_ms PID_USE_PARALLEL_FORM
                   c s r))
      as (_ & _ & _ & _ & _ & _ & _ & _ & _ & _ & _ & Hflag).
    now rewrite Hflag.
  - now rewrite parallel_form_keeps_I.
Qed.

(** X18.  [InitPIDControllers] switches integral action off on every
    controller, so in the parallel-form build the integral parts of the
    roll, pitch and yaw controllers stay 0 whatever is read, over any
    number of calls of [UpdatePIDControlSignals]; and the altitude
    controller is never touched. *)
Theorem integral_action_never_used :
  forall (k : Constants) (period_ms : Z) (envs : list Readings)
         (s : CtrlSignals_TypeDef),
    I (RollCtrl (fst (control_cycles period_ms PID_USE_PARALLEL_FORM envs
                        (InitPIDControllers k) s))) = 0 /\
    I (PitchCtrl (fst (control_cycles period_ms PID_USE_PARALLEL_FORM envs
                         (InitPIDControllers k) s))) = 0 /\
    I (YawCtrl (fst (control_cycles period_ms PID_USE_PARALLEL_FORM envs
                       (InitPIDControllers k) s))) = 0 /\
    AltCtrl (fst (control_cycles period_ms PID_USE_PARALLEL_FORM envs
                    (InitPIDControllers k) s))
    = AltCtrl (InitPIDControllers k).
Proof.
  intros k period_ms envs s.
  destruct (control_cycles_ind period_ms PID_USE_PARALLEL_FORM
              integral_unused integral_unused integral_unused
              (fun _ => True)
              (fun _ => True) (fun _ => True) (fun _ => True)
              ltac:(intros env c _ Hc; split;
                    [now apply integral_unused_step | exact Logic.I])
              ltac:(intros env c _ Hc; split;
                    [now apply integral_unused_step | exact Logic.I])
              ltac:(intros env c _ Hc; split;
                    [now apply integral_unused_step | exact Logic.I])
              envs
              ltac:(apply Forall_forall; trivial)
              (InitPIDControllers k) s)
    as ([_ HR] & [_ HP] & [_ HY] & HAlt & _).
  - split; reflexivity.
  - split; reflexivity.
  - split; reflexivity.
  - repeat split; assumption.
Qed.

End PIDMore.

(* ===================================================================== *)
(** * The PID bank as [InitPIDControllers] sets it up                     *)
(* ===================================================================== *)

Module PIDBankProofs.
Import RealModel PID PIDInit PIDSpec PIDSpecMore PIDProofs PIDMore.
Local Open Scope R_scope.

(** ** Runs of [UpdatePIDControl] *)

Lemma run_S_fst (period_ms : Z) (form : PIDForm) (n : nat)
      (c : PIDController_TypeDef) (s r : R) :
  fst (run period_ms form (S n) c s r)
  = fst (run period_ms form n
           (fst (UpdatePIDControl period_ms form c s r)) s r).
Proof.
  cbn [run]. destruct (UpdatePIDControl period_ms form c s r) as [c1 u].
  cbn [fst]. now destruct (run period_ms form n c1 s r).
Qed.

Lemma run_S_snd (period_ms : Z) (form : PIDForm) (n : nat)
      (c : PIDController_TypeDef) (s r : R) :
  snd (run period_ms form (S n) c s r)
  = snd (UpdatePIDControl period_ms form c s r)
    :: snd (run period_ms form n
              (fst (UpdatePIDControl period_ms form c s r)) s r).
Proof.
  cbn [run]. destruct (UpdatePIDControl period_ms form c s r) as [c1 u].
  cbn [fst snd]. now destruct (run period_ms form n c1 s r).
Qed.

(** ** The integral-action flag *)







(** ** Equilibrium *)

Lemma weighted_roll_controller :
  RollCtrl (InitPIDControllers weighted_constants)
  = drift_ctrl (arm_sqrt_f32 (1 * 1)) 0 0 0 0.
Proof. reflexivity. Qed.

(** One call in the classic form at state 1 and reference 2 (equilibrium
    for the weight 1/2), with a history that gives no derivative part:
    the proportional part is 0 and, the flag being off all the same, the
    integral part grows by one control period. *)
Lemma drift_step_classic (period_ms : Z) (tt p i ps pr : R) :
  0 < IZR period_ms -> 0 <= i -> ps = pr / 2 ->
  UpdatePIDControl period_ms PID_USE_CLASSIC_FORM
                   (drift_ctrl tt p i ps pr) 1 2
  = (drift_ctrl tt 0 (i + IZR period_ms / 1000) 1 2,
     Rmin (i + IZR period_ms / 1000) 1).
Proof.
  intros Hpos Hi Hps. subst ps.
  unfold UpdatePIDControl, classic_form, back_calculation, raw_signal,
    saturate, drift_ctrl.
  fields. to_R. cmp. fields.
  replace (1 / 2 * (2 - pr) - (1 - pr / 2)) with 0 by lra.
  rewrite !Rmult_0_r, Rplus_0_r.
  replace ((1 * (1 / 2 * 2 - 1)
            + (i + 1 * IZR period_ms / 1000 / 1 * (2 - 1)) + 0 + 0) * 1)
    with (i + IZR period_ms / 1000) by lra.
  cmp.
  unfold set_pre, set_D, set_I, set_P. fields.
  f_equal.
  - f_equal; lra.
  - destruct (Rltb_cases 1 (i + IZR period_ms / 1000)) as [[H1 ->] | [H1 ->]].
    + now rewrite Rmin_right by lra.
    + now rewrite Rmin_left by lra.
Qed.

(** The same call in the parallel form: the integral part stays where it
    is, and with no integral part the value returned is 0. *)
Lemma drift_step_parallel (period_ms : Z) (tt p ps pr : R) :
  ps = pr / 2 ->
  UpdatePIDControl period_ms PID_USE_PARALLEL_FORM
                   (drift_ctrl tt p 0 ps pr) 1 2
  = (drift_ctrl tt 0 0 1 2, 0).
Proof.
  intros Hps. subst ps.
  unfold UpdatePIDControl, parallel_form, back_calculation, raw_signal,
    saturate, drift_ctrl.
  fields. to_R.
  replace (1 / 2 * (2 - pr) - (1 - pr / 2)) with 0 by lra.
  rewrite !Rmult_0_r, Rplus_0_r.
  replace ((1 * (1 / 2 * 2 - 1) + 0 + 0 + 0) * 1) with 0 by lra.
  cmp.
  unfold set_pre, set_D, set_P. fields.
  f_equal. f_equal; lra.
Qed.

Lemma drift_run_classic (period_ms : Z) (tt : R) (n : nat) :
  0 < IZR period_ms ->
  forall p i ps pr : R,
    0 <= i -> ps = pr / 2 ->
    fst (run period_ms PID_USE_CLASSIC_FORM (S n)
           (drift_ctrl tt p i ps pr) 1 2)
    = drift_ctrl tt 0 (i + INR (S n) * (IZR period_ms / 1000)) 1 2 /\
    snd (run period_ms PID_USE_CLASSIC_FORM (S n)
           (drift_ctrl tt p i ps pr) 1 2)
    = map (fun j => Rmin (i + INR j * (IZR period_ms / 1000)) 1)
          (seq 1 (S n)).
Proof.
  intros Hpos.
  assert (Hdt : 0 < IZR period_ms / 1000) by lra.
  induction n as [| n IH]; intros p i ps pr Hi Hps.
  - rewrite run_S_fst, run_S_snd,
      (drift_step_classic period_ms tt p i ps pr Hpos Hi Hps).
    cbn [fst snd run map seq INR].
    replace (i + 1 * (IZR period_ms / 1000))
      with (i + IZR period_ms / 1000) by lra.
    split; reflexivity.
  - rewrite run_S_fst, run_S_snd,
      (drift_step_classic period_ms tt p i ps pr Hpos Hi Hps).
    cbn [fst snd].
    destruct (IH 0 (i + IZR period_ms / 1000) 1 2) as [Hfst Hsnd];
      [lra | lra |].
    rewrite Hfst, Hsnd. split.
    + f_equal. rewrite (S_INR (S n)). lra.
    + change (seq 1 (S (S n))) with (1%nat :: seq 2 (S n)).
      cbn [map]. f_equal.
      * cbn [INR]. f_equal. lra.
      * rewrite <- (seq_shift (S n) 1), map_map. apply map_ext.
        intros j. f_equal. rewrite (S_INR j). lra.
Qed.

Lemma drift_run_parallel (period_ms : Z) (tt : R) (n : nat) :
  forall p ps pr : R,
    ps = pr / 2 ->
    snd (run period_ms PID_USE_PARALLEL_FORM n
           (drift_ctrl tt p 0 ps pr) 1 2)
    = repeat 0 n.
Proof.
  induction n as [| n IH]; intros p ps pr Hps; [reflexivity |].
  rewrite run_S_snd, (drift_step_parallel period_ms tt p ps pr Hps).
  cbn [fst snd repeat]. f_equal. apply IH. lra.
Qed.

(** C8 (failing input).  Classic-form build, any positive control period
    [dt], the roll controller as [InitPIDControllers] leaves it for the
    constants [weighted_constants] (weights 1/2, limits [-1, 1], scaling
    1, offset 0, integral action off, [I] and [D] at 0), state 1 and
    reference 2 on every call.  The controller is at equilibrium and [P]
    is 0 after every call, but the integral step, which the classic form
    guards by [Ti > 0.0] and not by the flag, adds [dt] to [I] in every
    call: call number [j] returns [min (j * dt) 1], which is positive,
    and not [ctrlSignalOffset * ctrlSignalScaling = 0].  The
    parallel-form build returns 0 on every call. *)
Theorem classic_form_drifts_at_equilibrium :
  forall (period_ms : Z) (n : nat),
    (0 < period_ms)%Z ->
    let c := RollCtrl (InitPIDControllers weighted_constants) in
    let dt := IZR period_ms / 1000 in
    (1 = Beta c * 2 /\ useIntegralAction c = false /\ I c = 0 /\ D c = 0 /\
     ctrlSignalOffset c * ctrlSignalScaling c = 0) /\
    P (fst (run period_ms PID_USE_CLASSIC_FORM (S n) c 1 2)) = 0 /\
    I (fst (run period_ms PID_USE_CLASSIC_FORM (S n) c 1 2))
    = INR (S n) * dt /\
    snd (run period_ms PID_USE_CLASSIC_FORM (S n) c 1 2)
    = map (fun j => Rmin (INR j * dt) 1) (seq 1 (S n)) /\
    Forall (fun u => 0 < u)
           (snd (run period_ms PID_USE_CLASSIC_FORM (S n) c 1 2)) /\
    snd (run period_ms PID_USE_PARALLEL_FORM (S n) c 1 2)
    = repeat 0 (S n).
Proof.
  intros period_ms n Hpos c dt. apply IZR_lt in Hpos.
  assert (Hdt : 0 < dt) by (unfold dt; lra).
  subst c. rewrite weighted_roll_controller.
  destruct (drift_run_classic period_ms (arm_sqrt_f32 (1 * 1)) n Hpos
              0 0 0 0) as [Hfst Hsnd]; [lra | lra |].
  assert (Hout : snd (run period_ms PID_USE_CLASSIC_FORM (S n)
                        (drift_ctrl (arm_sqrt_f32 (1 * 1)) 0 0 0 0) 1 2)
                 = map (fun j => Rmin (INR j * dt) 1) (seq 1 (S n))).
  { rewrite Hsnd. apply map_ext. intros j. f_equal. unfold dt. lra. }
  split; [cbn; repeat split; lra |].
  rewrite Hfst, Hout. cbn [P I drift_ctrl].
  split; [reflexivity | split; [fold dt; lra | split; [reflexivity |]]].
  split.
  - apply Forall_forall. intros u Hin. apply in_map_iff in Hin.
    destruct Hin as (j & <- & Hj). apply in_seq in Hj.
    assert (Hj1 : 1 <= INR j) by (apply (le_INR 1); lia).
    apply Rmin_glb_lt; nra.
  - apply drift_run_parallel. lra.
Qed.

(** A control period of 10 ms: the first call returns
    [min (1 * 10/1000) 1], one hundredth, and not 0. *)
Lemma classic_form_drifts_at_equilibrium_witness :
  snd (run 10 PID_USE_CLASSIC_FORM 1
         (RollCtrl (InitPIDControllers weighted_constants)) 1 2)
  = [Rmin (INR 1 * (10 / 1000)) 1].
Proof.
  assert (Hpos : (0 < 10)%Z) by reflexivity.
  exact (proj1 (proj2 (proj2 (proj2
           (classic_form_drifts_at_equilibrium 10 0 Hpos))))).
Defined.

End PIDBankProofs.

(* ===================================================================== *)
(** * Further properties of the motor output                              *)
(* ===================================================================== *)

Module MotorMore.
Import Motor MotorSampling MotorSpec MotorSpecMore MotorProofs.
Local Open Scope Z_scope.

(** ** The compare value *)

(** X19.  The ends of the scale: control value 0 gives the compare value
    [ESC_MIN_OUTPUT] and control value 65535 gives [ESC_MAX_OUTPUT]
    (constants that fit 32-bit unsigned arithmetic). *)
Theorem ccrVal_endpoints :
  forall ESC_MIN_OUTPUT ESC_MAX_OUTPUT : Z,
    0 <= ESC_MIN_OUTPUT <= ESC_MAX_OUTPUT ->
    ESC_MAX_OUTPUT < 2 ^ 32 ->
    UINT16_MAX * (ESC_MAX_OUTPUT - ESC_MIN_OUTPUT) < 2 ^ 32 ->
    ccrVal ESC_MIN_OUTPUT ESC_MAX_OUTPUT 0 = ESC_MIN_OUTPUT /\
    ccrVal ESC_MIN_OUTPUT ESC_MAX_OUTPUT UINT16_MAX = ESC_MAX_OUTPUT.
Proof.
  intros lo hi Hmin Hmax Hprod. split.
  - rewrite (ccrVal_exact lo hi Hmin Hmax Hprod 0)
      by (unfold UINT16_MAX; lia).
    rewrite Z.mul_0_l, Z.div_0_l by (unfold UINT16_MAX; lia). lia.
  - rewrite (ccrVal_exact lo hi Hmin Hmax Hprod UINT16_MAX)
      by (unfold UINT16_MAX; lia).
    rewrite Z.mul_comm, Z.div_mul by (unfold UINT16_MAX; lia). lia.
Qed.

Lemma ccrVal_endpoints_witness :
  ccrVal 24000 48000 0 = 24000 /\ ccrVal 24000 48000 UINT16_MAX = 48000.
Proof.
  apply ccrVal_endpoints; [lia | lia | vm_compute; reflexivity].
Defined.

(** X20.  No jumps: when the range [ESC_MAX_OUTPUT - ESC_MIN_OUTPUT] is at
    most 65535, one more unit of control value raises the compare value
    by at most one count. *)
Theorem ccrVal_step :
  forall ESC_MIN_OUTPUT ESC_MAX_OUTPUT ctrlVal : Z,
    0 <= ESC_MIN_OUTPUT <= ESC_MAX_OUTPUT ->
    ESC_MAX_OUTPUT < 2 ^ 32 ->
    ESC_MAX_OUTPUT - ESC_MIN_OUTPUT <= UINT16_MAX ->
    0 <= ctrlVal < UINT16_MAX ->
    ccrVal ESC_MIN_OUTPUT ESC_MAX_OUTPUT ctrlVal
    <= ccrVal ESC_MIN_OUTPUT ESC_MAX_OUTPUT (ctrlVal + 1)
    <= ccrVal ESC_MIN_OUTPUT ESC_MAX_OUTPUT ctrlVal + 1.
Proof.
  intros lo hi v Hmin Hmax Hrange Hv.
  assert (Hprod : UINT16_MAX * (hi - lo) < 2 ^ 32)
    by (unfold UINT16_MAX in *; nia).
  rewrite (ccrVal_exact lo hi Hmin Hmax Hprod v) by lia.
  rewrite (ccrVal_exact lo hi Hmin Hmax Hprod (v + 1)) by lia.
  unfold UINT16_MAX in *. split.
  - apply Z.add_le_mono_l, Z.div_le_mono; nia.
  - rewrite <- Z.add_assoc. apply Z.add_le_mono_l.
    replace (v * (hi - lo) / 65535 + 1)
      with ((v * (hi - lo) + 1 * 65535) / 65535)
      by (rewrite Z.div_add by lia; reflexivity).
    apply Z.div_le_mono; nia.
Qed.

Lemma ccrVal_step_witness :
  ccrVal 24000 48000 100 <= ccrVal 24000 48000 (100 + 1)
  <= ccrVal 24000 48000 100 + 1.
Proof.
  apply ccrVal_step; unfold UINT16_MAX; lia.
Defined.

(** ** The sampling task *)

Lemma vTaskDelete_fresh (h : nat) (live : list nat) :
  ~ In h live -> vTaskDelete h (h :: live) = live.
Proof.
  intros Hfresh. unfold vTaskDelete. cbn [remove].
  destruct (Nat.eq_dec h h) as [_ | Hne]; [| contradiction].
  now apply notin_remove.
Qed.

(** X21.  Start then stop is a round trip: when [xTaskCreate] succeeds
    with the handle of a task that was not live before, stopping returns
    [MOTORCTRL_OK], the handle is NULL again and the live tasks are those
    from before the start. *)
Theorem start_stop_round_trip :
  forall (sampleTime sampleDuration : Z) (h : nat) (st : SamplingState),
    ~ In h (tasks (motor st)) ->
    let started :=
      fst (StartMotorControlSamplingTask sampleTime sampleDuration
             (Some h) st) in
    snd (StartMotorControlSamplingTask sampleTime sampleDuration
           (Some h) st) = MOTORCTRL_OK /\
    In h (tasks (motor started)) /\
    snd (StopSampling started) = MOTORCTRL_OK /\
    MotorControlPrintSamplingTaskHandle (motor (fst (StopSampling started)))
    = None /\
    tasks (motor (fst (StopSampling started))) = tasks (motor st) /\
    MotorControlValues (motor (fst (StopSampling started)))
    = MotorControlValues (motor st).
Proof.
  intros sampleTime sampleDuration h st Hfresh started.
  subst started. unfold StartMotorControlSamplingTask, StopSampling,
    StopMotorControlSamplingTask.
  cbn [fst snd motor MotorControlPrintSamplingTaskHandle tasks
       MotorControlValues].
  repeat split; [now left |].
  now apply vTaskDelete_fresh.
Qed.

Lemma start_stop_round_trip_witness :
  tasks (motor (fst (StopSampling
                       (fst (StartMotorControlSamplingTask 100 5 (Some 9%nat)
                               sampling_idle)))))
  = tasks (motor sampling_idle).
Proof.
  refine (proj1 (proj2 (proj2 (proj2 (proj2
            (start_stop_round_trip 100 5 9%nat sampling_idle _)))))).
  cbn. intros [H1 | [H2 | []]]; discriminate.
Defined.

(** X22.  Starting does not look at the handle: a second successful start
    overwrites the handle of the first task, and the stop that follows
    deletes the second task only.  The first task stays live with no
    handle left to it, and a further stop reports [MOTORCTRL_ERROR]. *)
Theorem second_start_orphans_first_task :
  forall (t1 d1 t2 d2 : Z) (h1 h2 : nat) (st : SamplingState),
    h1 <> h2 ->
    let st1 := fst (StartMotorControlSamplingTask t1 d1 (Some h1) st) in
    let st2 := fst (StartMotorControlSamplingTask t2 d2 (Some h2) st1) in
    let st3 := fst (StopSampling st2) in
    snd (StopSampling st2) = MOTORCTRL_OK /\
    In h1 (tasks (motor st3)) /\
    ~ In h2 (tasks (motor st3)) /\
    MotorControlPrintSamplingTaskHandle (motor st3) = None /\
    StopSampling st3 = (st3, MOTORCTRL_ERROR).
Proof.
  intros t1 d1 t2 d2 h1 h2 st Hne st1 st2 st3.
  subst st1 st2 st3. unfold StartMotorControlSamplingTask, StopSampling,
    StopMotorControlSamplingTask.
  cbn [fst snd motor MotorControlPrintSamplingTaskHandle tasks
       MotorControlValues MotorControlTimHandle
       motorControlPrintSampleTime motorControlPrintSampleDuration
       ErrorHandler_calls].
  repeat split.
  - unfold vTaskDelete. cbn [remove].
    destruct (Nat.eq_dec h2 h2) as [_ | Hn]; [| contradiction].
    destruct (Nat.eq_dec h2 h1) as [Heq | _]; [now symmetry in Heq |].
    now left.
  - unfold vTaskDelete. apply remove_In.
Qed.

Lemma second_start_orphans_first_task_witness :
  In 3%nat
     (tasks (motor (fst (StopSampling
        (fst (StartMotorControlSamplingTask 100 5 (Some 4%nat)
           (fst (StartMotorControlSamplingTask 100 5 (Some 3%nat)
                   sampling_idle)))))))).
Proof.
  assert (Hne : 3%nat <> 4%nat) by discriminate.
  exact (proj1 (proj2
           (second_start_orphans_first_task 100 5 100 5 3%nat 4%nat
              sampling_idle Hne))).
Defined.

(** X23.  The sample duration is a 32-bit parameter stored in a 16-bit
    variable: what is stored is the duration asked for exactly when that
    is below 65536, and otherwise a smaller value, whether or not the
    task could be created. *)
Theorem sample_duration_truncated :
  forall (sampleTime sampleDuration : Z) (created : option nat)
         (st : SamplingState),
    0 <= sampleDuration < 2 ^ 32 ->
    let stored :=
      motorControlPrintSampleDuration
        (fst (StartMotorControlSamplingTask sampleTime sampleDuration
                created st)) in
    0 <= stored < 2 ^ 16 /\
    (stored = sampleDuration <-> sampleDuration < 2 ^ 16) /\
    (2 ^ 16 <= sampleDuration -> stored <= sampleDuration - 2 ^ 16).
Proof.
  intros sampleTime sampleDuration created st Hd stored.
  assert (Hs : stored = sampleDuration mod 2 ^ 16)
    by (subst stored; now destruct created).
  rewrite Hs. clear Hs stored.
  pose proof (Z.mod_pos_bound sampleDuration (2 ^ 16) ltac:(lia)) as Hb.
  split; [exact Hb | split; [split |]].
  - intros Heq. lia.
  - intros Hlt. apply Z.mod_small. lia.
  - intros Hge.
    pose proof (Z.div_mod sampleDuration (2 ^ 16) ltac:(lia)) as Hdm.
    assert (1 <= sampleDuration / 2 ^ 16)
      by (apply Z.div_le_lower_bound; lia).
    lia.
Qed.

Lemma sample_duration_truncated_witness :
  motorControlPrintSampleDuration
    (fst (StartMotorControlSamplingTask 100 65546 (Some 9%nat) sampling_idle))
  <= 65546 - 2 ^ 16.
Proof.
  assert (Hd : 0 <= 65546 < 2 ^ 32) by lia.
  apply (sample_duration_truncated 100 65546 (Some 9%nat) sampling_idle Hd).
  lia.
Defined.

(** X24.  Stopping twice: whatever the state, a stop that follows a stop
    returns [MOTORCTRL_ERROR] and changes nothing. *)
Theorem stop_twice :
  forall st : MotorState,
    StopMotorControlSamplingTask (fst (StopMotorControlSamplingTask st))
    = (fst (StopMotorControlSamplingTask st), MOTORCTRL_ERROR).
Proof.
  intros st. unfold StopMotorControlSamplingTask at 2 3.
  destruct (MotorControlPrintSamplingTaskHandle st) as [h |] eqn:Hh.
  - reflexivity.
  - cbn [fst]. unfold StopMotorControlSamplingTask. now rewrite Hh.
Qed.

(** ** [PrintMotorControlValues] *)

Lemma length_app (s t : string) :
  String.length (s ++ t) = (String.length s + String.length t)%nat.
Proof. induction s as [| a s IH]; cbn; [reflexivity | now rewrite IH]. Qed.

Lemma substring_all (s : string) (n : nat) :
  (String.length s <= n)%nat -> substring 0 n s = s.
Proof.
  revert n. induction s as [| a s IH]; intros n Hn.
  - now destruct n.
  - destruct n as [| n]; cbn in Hn; [lia |].
    cbn. now rewrite IH by lia.
Qed.

(** A value below [10 ^ k] prints with between 1 and [k] digits. *)
Lemma udec_digits_length (fuel : nat) :
  forall (k : nat) (n : Z),
    (1 <= k <= fuel)%nat -> 0 <= n < 10 ^ Z.of_nat k ->
    (1 <= String.length (udec_digits fuel n) <= k)%nat.
Proof.
  induction fuel as [| fuel IH]; intros k n Hk Hn; [lia |].
  cbn [udec_digits]. destruct (n <? 10) eqn:Hlt.
  - cbn. lia.
  - apply Z.ltb_ge in Hlt.
    destruct k as [| [| k]]; [lia | cbn in Hn; lia |].
    rewrite length_app. cbn [digit String.length].
    assert (Hdiv : 0 <= n / 10 < 10 ^ Z.of_nat (S k)).
    { split; [apply Z.div_pos; lia |].
      apply Z.div_lt_upper_bound; [lia |].
      replace (Z.of_nat (S (S k))) with (Z.of_nat (S k) + 1) in Hn by lia.
      rewrite Z.pow_add_r in Hn by lia. lia. }
    specialize (IH (S k) (n / 10) ltac:(lia) Hdiv). lia.
Qed.

Lemma udec_uint16_length (n : Z) :
  0 <= n <= UINT16_MAX -> (1 <= String.length (udec n) <= 5)%nat.
Proof.
  intros Hn. unfold udec. apply udec_digits_length; [lia |].
  unfold UINT16_MAX in Hn. cbn. lia.
Qed.

(** X25.  The text printed is never cut: for motor values in the 16-bit
    range the formatted text has between 50 and 66 characters, below the
    127 that fit the buffer, so [snprintf] stores all of it. *)
Theorem PrintMotorControlValues_not_truncated :
  forall st : MotorState,
    0 <= Motor1 (MotorControlValues st) <= UINT16_MAX ->
    0 <= Motor2 (MotorControlValues st) <= UINT16_MAX ->
    0 <= Motor3 (MotorControlValues st) <= UINT16_MAX ->
    0 <= Motor4 (MotorControlValues st) <= UINT16_MAX ->
    PrintMotorControlValues st
    = ("Motor control (uint16):" ++ LF
       ++ "M1: " ++ udec (Motor1 (MotorControlValues st)) ++ LF
       ++ "M2: " ++ udec (Motor2 (MotorControlValues st)) ++ LF
       ++ "M3: " ++ udec (Motor3 (MotorControlValues st)) ++ LF
       ++ "M4: " ++ udec (Motor4 (MotorControlValues st)) ++ LF
       ++ CR ++ LF)%string /\
    (50 <= String.length (PrintMotorControlValues st) <= 66)%nat.
Proof.
  intros st H1 H2 H3 H4.
  pose proof (udec_uint16_length _ H1) as L1.
  pose proof (udec_uint16_length _ H2) as L2.
  pose proof (udec_uint16_length _ H3) as L3.
  pose proof (udec_uint16_length _ H4) as L4.
  unfold PrintMotorControlValues, snprintf,
    MOTOR_CONTROL_PRINT_MAX_STRING_SIZE. cbv zeta.
  set (text := (_ ++ _)%string).
  assert (Hlen : (50 <= String.length text <= 66)%nat).
  { subst text. repeat rewrite length_app. cbn [String.length LF CR]. lia. }
  change (128 - 1)%nat with 127%nat.
  rewrite (substring_all text 127) by lia.
  split; [reflexivity | exact Hlen].
Qed.

Lemma PrintMotorControlValues_not_truncated_witness :
  (50 <= String.length (PrintMotorControlValues idle_motors) <= 66)%nat.
Proof.
  apply PrintMotorControlValues_not_truncated;
    cbn; unfold UINT16_MAX; lia.
Defined.

End MotorMore.

(* ===================================================================== *)
(** * Properties of the interrupt callbacks of main.c                     *)
(* ===================================================================== *)

Module MainMore.
Import Main.
Local Open Scope Z_scope.

(** ** [HAL_GPIO_EXTI_Callback] *)

Section Exti.

Variables USER_BUTTON_PIN GPIO_GYRO_DRDY : Z.
Hypothesis pins_differ : USER_BUTTON_PIN <> GPIO_GYRO_DRDY.

Local Notation "'callback'" :=
  (HAL_GPIO_EXTI_Callback USER_BUTTON_PIN GPIO_GYRO_DRDY).
Local Notation "'run'" := (exti_run USER_BUTTON_PIN GPIO_GYRO_DRDY).
Local Notation "'occurrences' pins pin" :=
  (Z.of_nat (count_occ Z.eq_dec pins pin))
  (at level 10, pins at level 9, pin at level 9).

Lemma button_press (st : ExtiState) :
  0 <= UserButtonPressed st <= 7 ->
  callback USER_BUTTON_PIN st
  = {| UserButtonPressed := (UserButtonPressed st + 1) mod 8;
       LED7_toggles :=
         (LED7_toggles st + Z.to_nat ((UserButtonPressed st + 1) / 8))%nat;
       sensor_messages := sensor_messages st |}.
Proof.
  intros Hc. unfold HAL_GPIO_EXTI_Callback, u8.
  rewrite Z.eqb_refl.
  rewrite (Z.mod_small (UserButtonPressed st + 1) (2 ^ 8)) by lia.
  destruct (Z.eq_dec (UserButtonPressed st) 7) as [H7 | H7].
  - rewrite H7. cbn. f_equal. lia.
  - assert (Hle : UserButtonPressed st + 1 <= 7) by lia.
    destruct (UserButtonPressed st + 1 >? 7) eqn:Hgt;
      [apply Z.gtb_lt in Hgt; lia |].
    rewrite Z.mod_small, Z.div_small by lia.
    f_equal. cbn. lia.
Qed.

Lemma exti_run_invariant (pins : list Z) :
  forall st : ExtiState,
    0 <= UserButtonPressed st <= 7 ->
    UserButtonPressed (run pins st)
    = (UserButtonPressed st + occurrences pins USER_BUTTON_PIN) mod 8 /\
    Z.of_nat (LED7_toggles (run pins st))
    = Z.of_nat (LED7_toggles st)
      + (UserButtonPressed st + occurrences pins USER_BUTTON_PIN) / 8 /\
    sensor_messages (run pins st)
    = (repeat FCB_SENSOR_GYRO_DATA_READY
              (count_occ Z.eq_dec pins GPIO_GYRO_DRDY)
       ++ sensor_messages st)%list.
Proof.
  induction pins as [| pin pins IH]; intros st Hc.
  - cbn. rewrite Z.add_0_r, Z.mod_small, Z.div_small by lia.
    repeat split; lia.
  - unfold exti_run in *. cbn [fold_left count_occ].
    destruct (Z.eq_dec pin USER_BUTTON_PIN) as [-> | Hnb].
    + rewrite (button_press st Hc).
      destruct (Z.eq_dec USER_BUTTON_PIN GPIO_GYRO_DRDY) as [He | _];
        [contradiction |].
      destruct (Z.eq_dec USER_BUTTON_PIN USER_BUTTON_PIN) as [_ | Hn];
        [| contradiction].
      match goal with
      | |- context [fold_left _ pins ?st1] => specialize (IH st1)
      end.
      cbn [UserButtonPressed LED7_toggles sensor_messages] in IH.
      destruct IH as (Hcnt & Hled & Hmsg);
        [pose proof (Z.mod_pos_bound (UserButtonPressed st + 1) 8); lia |].
      rewrite Hcnt, Hled, Hmsg.
      rewrite Nat2Z.inj_succ, Nat2Z.inj_add.
      rewrite Z2Nat.id by (apply Z.div_pos; lia).
      set (n := Z.of_nat (count_occ Z.eq_dec pins USER_BUTTON_PIN)).
      set (c := UserButtonPressed st) in *.
      assert (Hn : 0 <= n) by (subst n; lia).
      replace (c + Z.succ n) with (c + 1 + n) by lia.
      split; [now rewrite Z.add_mod_idemp_l by lia |].
      split; [| reflexivity].
      pose proof (Z.div_mod (c + 1) 8 ltac:(lia)) as Hdm.
      replace (c + 1 + n) with ((c + 1) / 8 * 8 + ((c + 1) mod 8 + n)) at 1
        by lia.
      rewrite Z.div_add_l by lia. lia.
    + assert (Hstep : callback pin st
                      = if Z.eq_dec pin GPIO_GYRO_DRDY
                        then {| UserButtonPressed := UserButtonPressed st;
                                LED7_toggles := LED7_toggles st;
                                sensor_messages :=
                                  FCB_SENSOR_GYRO_DATA_READY
                                    :: sensor_messages st |}
                        else st).
      { unfold HAL_GPIO_EXTI_Callback.
        destruct (pin =? USER_BUTTON_PIN) eqn:Hb;
          [apply Z.eqb_eq in Hb; contradiction |].
        destruct (Z.eq_dec pin GPIO_GYRO_DRDY) as [-> | Hng].
        - now rewrite Z.eqb_refl.
        - destruct (pin =? GPIO_GYRO_DRDY) eqn:Hg;
            [apply Z.eqb_eq in Hg; contradiction | reflexivity]. }
      rewrite Hstep.
      destruct (Z.eq_dec pin GPIO_GYRO_DRDY) as [Hg | Hng].
      * match goal with
        | |- context [fold_left _ pins ?st1] => specialize (IH st1)
        end.
        cbn [UserButtonPressed LED7_toggles sensor_messages] in IH.
        destruct (IH Hc) as (Hcnt & Hled & Hmsg).
        rewrite Hcnt, Hled, Hmsg.
        repeat split.
        cbn [repeat]. now rewrite repeat_cons, <- app_assoc.
      * exact (IH st Hc).
Qed.

End Exti.

(** X26.  The user button counts modulo 8: over any run of interrupts,
    started with the counter within [0, 7], the counter ends at
    (counter + presses) mod 8, LED7 has been toggled once for every
    eighth press, and every interrupt of the gyroscope data-ready pin (a
    pin other than the button's) has posted one
    [FCB_SENSOR_GYRO_DATA_READY] message; other pins do nothing. *)
Theorem button_counts_modulo_8 :
  forall (USER_BUTTON_PIN GPIO_GYRO_DRDY : Z) (pins : list Z)
         (st : ExtiState),
    USER_BUTTON_PIN <> GPIO_GYRO_DRDY ->
    0 <= UserButtonPressed st <= 7 ->
    let presses := Z.of_nat (count_occ Z.eq_dec pins USER_BUTTON_PIN) in
    let final := exti_run USER_BUTTON_PIN GPIO_GYRO_DRDY pins st in
    UserButtonPressed final = (UserButtonPressed st + presses) mod 8 /\
    Z.of_nat (LED7_toggles final)
    = Z.of_nat (LED7_toggles st) + (UserButtonPressed st + presses) / 8 /\
    sensor_messages final
    = (repeat FCB_SENSOR_GYRO_DATA_READY
              (count_occ Z.eq_dec pins GPIO_GYRO_DRDY)
       ++ sensor_messages st)%list.
Proof.
  intros button gyro pins st Hdiff Hc presses final.
  subst presses final. now apply exti_run_invariant.
Qed.

Lemma button_counts_modulo_8_witness :
  UserButtonPressed
    (exti_run 1 2 [1; 1; 2; 1; 3; 1; 1; 1; 1; 1; 2; 1]
       {| UserButtonPressed := 0; LED7_toggles := 0; sensor_messages := [] |})
  = (0 + 9) mod 8.
Proof.
  refine (proj1 (button_counts_modulo_8 1 2
                   [1; 1; 2; 1; 3; 1; 1; 1; 1; 1; 2; 1]
                   {| UserButtonPressed := 0; LED7_toggles := 0;
                      sensor_messages := [] |} _ _)).
  - discriminate.
  - cbn. lia.
Defined.

(** ** [HAL_SYSTICK_Callback] *)

Lemma tick_step (b : bool) (st : TickState) :
  0 <= kicks st -> kicks st + 1 < 2 ^ 32 ->
  let st' := HAL_SYSTICK_Callback b st in
  kicks st' = kicks st + 1 /\
  Z.of_nat (LED9_toggles st')
  = Z.of_nat (LED9_toggles st) + ((kicks st + 1) / 1000 - kicks st / 1000) /\
  HAL_IncTick_calls st' = S (HAL_IncTick_calls st) /\
  xPortSysTickHandler_calls st'
  = ((if b then 1 else 0) + xPortSysTickHandler_calls st)%nat.
Proof.
  intros H0 Hmax. unfold HAL_SYSTICK_Callback, Motor.u32.
  cbn [kicks LED9_toggles HAL_IncTick_calls xPortSysTickHandler_calls].
  rewrite (Z.mod_small (kicks st + 1)) by lia.
  repeat split.
  - destruct ((kicks st + 1) mod 1000 =? 0) eqn:Hm.
    + apply Z.eqb_eq in Hm. rewrite Nat2Z.inj_succ.
      Z.div_mod_to_equations. lia.
    + apply Z.eqb_neq in Hm. Z.div_mod_to_equations. lia.
  - now destruct b.
Qed.

Lemma tick_run_invariant (started : list bool) :
  forall st : TickState,
    0 <= kicks st ->
    kicks st + Z.of_nat (List.length started) < 2 ^ 32 ->
    kicks (tick_run started st) = kicks st + Z.of_nat (List.length started) /\
    Z.of_nat (LED9_toggles (tick_run started st))
    = Z.of_nat (LED9_toggles st)
      + ((kicks st + Z.of_nat (List.length started)) / 1000 - kicks st / 1000) /\
    HAL_IncTick_calls (tick_run started st)
    = (List.length started + HAL_IncTick_calls st)%nat /\
    xPortSysTickHandler_calls (tick_run started st)
    = (count_occ bool_dec started true + xPortSysTickHandler_calls st)%nat.
Proof.
  induction started as [| b started IH]; intros st H0 Hmax.
  - cbn. rewrite Z.add_0_r. repeat split; lia.
  - unfold tick_run in *. cbn [fold_left List.length count_occ] in *.
    rewrite Nat2Z.inj_succ in *.
    destruct (tick_step b st H0 ltac:(lia)) as (Hk & Hled & Htick & Hport).
    destruct (IH (HAL_SYSTICK_Callback b st) ltac:(lia) ltac:(lia))
      as (Hk' & Hled' & Htick' & Hport').
    rewrite Hk in Hk', Hled'. rewrite Hled in Hled'.
    rewrite Htick in Htick'. rewrite Hport in Hport'.
    rewrite Hk', Hled', Htick', Hport'.
    replace (kicks st + 1 + Z.of_nat (List.length started))
      with (kicks st + Z.succ (Z.of_nat (List.length started))) by lia.
    repeat split; try lia.
    destruct b, (bool_dec true true), (bool_dec false true);
      try congruence; lia.
Qed.

(** X27.  The system tick counts every call: as long as the 32-bit
    counter [kicks] does not wrap, [n] calls of [HAL_SYSTICK_Callback]
    advance it by [n], toggle LED9 once for every multiple of 1000 that
    the counter reaches, call [HAL_IncTick] [n] times, and call
    [xPortSysTickHandler] once for every call made with the scheduler
    started. *)
Theorem systick_toggles_every_1000 :
  forall (started : list bool) (st : TickState),
    0 <= kicks st ->
    kicks st + Z.of_nat (List.length started) < 2 ^ 32 ->
    let n := Z.of_nat (List.length started) in
    let final := tick_run started st in
    kicks final = kicks st + n /\
    Z.of_nat (LED9_toggles final)
    = Z.of_nat (LED9_toggles st) + ((kicks st + n) / 1000 - kicks st / 1000) /\
    HAL_IncTick_calls final = (List.length started + HAL_IncTick_calls st)%nat /\
    xPortSysTickHandler_calls final
    = (count_occ bool_dec started true + xPortSysTickHandler_calls st)%nat.
Proof.
  intros started st H0 Hmax n final. subst n final.
  now apply tick_run_invariant.
Qed.

Lemma systick_toggles_every_1000_witness :
  kicks (tick_run [true; false; true]
           {| kicks := 998; LED9_toggles := 0; HAL_IncTick_calls := 0;
              xPortSysTickHandler_calls := 0 |})
  = 998 + 3.
Proof.
  refine (proj1 (systick_toggles_every_1000 [true; false; true]
                   {| kicks := 998; LED9_toggles := 0;
                      HAL_IncTick_calls := 0;
                      xPortSysTickHandler_calls := 0 |} _ _)).
  - cbn. lia.
  - cbn. lia.
Defined.

(** The counter wraps: the call made with [kicks] at [2 ^ 32 - 1] sets it
    to 0 and toggles LED9, 296 calls after the toggle at 4294967000. *)
Remark systick_wraps :
  let st := {| kicks := 2 ^ 32 - 1; LED9_toggles := 0;
               HAL_IncTick_calls := 0; xPortSysTickHandler_calls := 0 |} in
  kicks (HAL_SYSTICK_Callback true st) = 0 /\
  LED9_toggles (HAL_SYSTICK_Callback true st) = 1%nat.
Proof. split; reflexivity. Qed.

End MainMore.
